(** * Automation job orchestration: a shallow embedding of the API routers

    The development follows [api/routers/automation.py] (job queue
    endpoints, the WebSocket connection manager and the route table) and the
    scheduling loop of [api/routers/intelligence.py].

    Conventions of the embedding:
    - the [automation_jobs] and [clients] tables are finite maps keyed by id;
      a SQL statement is the map operation it performs;
    - the Redis lists [job_queue:<priority>] are a finite map from the
      priority value to a list, [lpush] adding at the head;
    - a handler is a computation in a state-and-error monad: raising an
      [HTTPException] stops the handler and keeps the state reached so far;
    - timestamps are integers (microseconds), the resolution of a Python
      [datetime]; the clock is a field of the state, read by [utcnow] and
      by SQL [NOW()], and it stands still while one handler runs;
    - [ConnectionManager.active_connections] is a dict of list objects: the
      lists are shared with whoever holds a reference to them, and the
      embedding writes an in-place mutation of such a list back into the
      registry. *)

From Stdlib Require Import ZArith NArith String Ascii List Lia.
From stdpp Require Import base option gmap strings list fin_maps pretty.

Local Open Scope Z_scope.
Local Open Scope string_scope.

(** ** Enumerations *)

Inductive JobStatus :=
  | PENDING | QUEUED | RUNNING | PAUSED | COMPLETED | FAILED | CANCELLED.

Inductive JobType :=
  | MENU_BUILD | MENU_SYNC | ITEM_CREATE | ITEM_UPDATE | MODIFIER_SYNC
  | HEALTH_CHECK | GOLDEN_COPY | CLASSIFICATION | REPORT_GENERATION | BACKUP.

Inductive JobPriority := LOW | NORMAL | HIGH | CRITICAL.

#[global] Instance JobStatus_eq_dec : EqDecision JobStatus.
Proof. solve_decision. Defined.

#[global] Instance JobType_eq_dec : EqDecision JobType.
Proof. solve_decision. Defined.

#[global] Instance JobPriority_eq_dec : EqDecision JobPriority.
Proof. solve_decision. Defined.

(** The [.value] of each enumeration member. *)
Definition status_value (st : JobStatus) : string :=
  match st with
  | PENDING => "pending" | QUEUED => "queued" | RUNNING => "running"
  | PAUSED => "paused" | COMPLETED => "completed" | FAILED => "failed"
  | CANCELLED => "cancelled"
  end.

Definition job_type_value (jt : JobType) : string :=
  match jt with
  | MENU_BUILD => "menu_build" | MENU_SYNC => "menu_sync"
  | ITEM_CREATE => "item_create" | ITEM_UPDATE => "item_update"
  | MODIFIER_SYNC => "modifier_sync" | HEALTH_CHECK => "health_check"
  | GOLDEN_COPY => "golden_copy" | CLASSIFICATION => "classification"
  | REPORT_GENERATION => "report_generation" | BACKUP => "backup"
  end.

Definition priority_value (p : JobPriority) : Z :=
  match p with LOW => 0 | NORMAL => 1 | HIGH => 2 | CRITICAL => 3 end.

(** ** Identifiers

    A [uuid.UUID] is its 128-bit integer; [str_uuid] is [UUID.__str__]:
    the 32 hexadecimal digits, grouped 8-4-4-4-12. *)

Abbreviation UUID := N (only parsing).

Definition hex_digit (n : N) : ascii :=
  match n with
  | 0 => "0" | 1 => "1" | 2 => "2" | 3 => "3" | 4 => "4" | 5 => "5"
  | 6 => "6" | 7 => "7" | 8 => "8" | 9 => "9" | 10 => "a" | 11 => "b"
  | 12 => "c" | 13 => "d" | 14 => "e" | _ => "f"
  end%N%char.

(** The [digits] low hexadecimal digits of [n], most significant first. *)
Fixpoint hex_of (digits : nat) (n : N) : string :=
  match digits with
  | O => ""
  | S d => hex_of d (n / 16)%N ++ String (hex_digit (n mod 16)%N) ""
  end.

Definition str_uuid (u : UUID) : string :=
  hex_of 8 (N.shiftr u 96) ++ "-" ++ hex_of 4 (N.shiftr u 80) ++ "-" ++
  hex_of 4 (N.shiftr u 64) ++ "-" ++ hex_of 4 (N.shiftr u 48) ++ "-" ++
  hex_of 12 u.

(** ** Rows of [automation_jobs]

    [config], [result] and [metadata] are JSON documents, kept as their
    text; a SQL NULL is [None]. *)

Record Job := mkJob {
  j_id : UUID;
  j_client_id : UUID;
  j_job_type : JobType;
  j_status : JobStatus;
  j_priority : JobPriority;
  j_config : string;
  j_result : option string;
  j_error : option string;
  j_progress : Z;
  j_progress_message : option string;
  j_scheduled_at : option Z;
  j_started_at : option Z;
  j_completed_at : option Z;
  j_created_at : Z;
  j_updated_at : Z;
  j_retry_count : Z;
  j_max_retries : Z;
  j_retry_on_failure : bool;
  j_timeout_seconds : Z;
  j_depends_on : list UUID;
  j_metadata : string
}.

(** ** Requests *)

Record CreateJobRequest := mkCreate {
  c_client_id : UUID;
  c_job_type : JobType;
  c_priority : JobPriority;
  c_config : string;
  c_scheduled_at : option Z;
  c_depends_on : option (list UUID);
  c_retry_on_failure : bool;
  c_max_retries : Z;
  c_timeout_seconds : Z;
  c_metadata : string
}.

Record UpdateJobRequest := mkUpdate {
  u_status : option JobStatus;
  u_priority : option JobPriority;
  u_config : option string;
  u_scheduled_at : option Z;
  u_metadata : option string
}.

(** ** WebSocket messages and the state of the service *)

Abbreviation WebSocket := nat (only parsing).

Record Message := mkMessage {
  m_type : string;
  m_job_id : string;
  m_status : JobStatus;
  m_progress : Z;
  m_progress_message : option string;
  m_timestamp : Z
}.

(** The dict handed to [broadcast_job_update]; a key left out by the caller
    is [None]. *)
Record JobUpdate := mkJobUpdate {
  ju_id : UUID;
  ju_client_id : UUID;
  ju_status : JobStatus;
  ju_progress : option Z;
  ju_progress_message : option string
}.

Record State := mkState {
  clock : Z;
  clients : gmap N string;
  jobs : gmap N Job;
  queues : gmap Z (list N);
  active_connections : gmap string (list nat);
  emitted : list (string * Message);
  sent : list (nat * Message)
}.

(** [emitted] is the trace of calls to [broadcast_to_client] and [sent] the
    trace of calls to [send_json], oldest first. *)

(** ** The handler monad *)

Inductive HTTPException := mkHTTPException (status_code : Z) (detail : string).

Definition M (A : Type) : Type := State -> (HTTPException + A) * State.

#[global] Instance M_ret : MRet M := fun A x s => (inr x, s).

#[global] Instance M_bind : MBind M := fun A B f m s =>
  match m s with
  | (inl e, s') => (inl e, s')
  | (inr a, s') => f a s'
  end.

Definition raise {A} (e : HTTPException) : M A := fun s => (inl e, s).
Definition get_state : M State := fun s => (inr s, s).
Definition put_state (s' : State) : M unit := fun _ => (inr tt, s').
Definition utcnow : M Z := fun s => (inr (clock s), s).

Definition set_jobs (js : gmap N Job) (s : State) : State :=
  mkState (clock s) (clients s) js (queues s) (active_connections s)
          (emitted s) (sent s).

Definition set_queues (qs : gmap Z (list N)) (s : State) : State :=
  mkState (clock s) (clients s) (jobs s) qs (active_connections s)
          (emitted s) (sent s).

(** ** ConnectionManager *)

Definition connect (websocket : nat) (client_id : string) : M unit := fun s =>
  let reg := active_connections s in
  let reg' := match reg !! client_id with
              | None => <[client_id := [websocket]]> reg
              | Some l => <[client_id := (l ++ [websocket])%list]> reg
              end in
  (inr tt, mkState (clock s) (clients s) (jobs s) (queues s) reg'
                   (emitted s) (sent s)).

(** [broadcast_to_client]: [connections] is the list object stored under
    [client_id] when there is one, and a new empty list otherwise;
    [extend] appends the global listeners to that object in place, so in the
    first case the registry entry of [client_id] grows as well. The message
    is then sent to every element of [connections]; an exception of
    [send_json] is logged and the loop goes on. *)
Definition broadcast_to_client (client_id : string) (message : Message)
  : M unit := fun s =>
  let reg := active_connections s in
  let global := default [] (reg !! "global") in
  let '(connections, reg') :=
    match reg !! client_id with
    | Some l => ((l ++ global)%list, <[client_id := (l ++ global)%list]> reg)
    | None => (([] ++ global)%list, reg)
    end in
  (inr tt, mkState (clock s) (clients s) (jobs s) (queues s) reg'
                   (emitted s ++ [(client_id, message)])%list
                   (sent s ++ map (fun ws => (ws, message)) connections)%list).

(** The dict [message] built by [broadcast_job_update]. *)
Definition job_update_message (job : JobUpdate) (now : Z) : Message :=
  {| m_type := "job_update";
     m_job_id := str_uuid (ju_id job);
     m_status := ju_status job;
     m_progress := default 0 (ju_progress job);
     m_progress_message := ju_progress_message job;
     m_timestamp := now |}.

Definition broadcast_job_update (job : JobUpdate) : M unit :=
  now ← utcnow;
  broadcast_to_client (str_uuid (ju_client_id job))
    (job_update_message job now).

(** The listeners registered under a key, none when the key is absent. *)
Definition listeners (s : State) (client_id : string) : list nat :=
  default [] (active_connections s !! client_id).

(** ** Job queue endpoints *)

(** [redis.lpush(f"job_queue:{priority}", str(job_id))]. *)
Definition lpush (priority : Z) (job_id : N) : M unit := fun s =>
  (inr tt,
   set_queues (<[priority := job_id :: default [] (queues s !! priority)]>
                 (queues s)) s).

Definition get_job (job_id : N) : M Job :=
  s ← get_state;
  match jobs s !! job_id with
  | None => raise (mkHTTPException 404 "Job not found")
  | Some row => mret row
  end.

(** The loop over [request.depends_on] that looks every dependency up. *)
Fixpoint check_dependencies (depends_on : list N) : M unit :=
  match depends_on with
  | [] => mret tt
  | dep_id :: rest =>
      s ← get_state;
      match jobs s !! dep_id with
      | None =>
          raise (mkHTTPException 400
                   ("Dependency job " ++ str_uuid dep_id ++ " not found"))
      | Some _ => check_dependencies rest
      end
  end.

(** [SELECT COUNT( * ) FROM automation_jobs
     WHERE id = ANY($1) AND status != 'completed']. *)
Definition count_incomplete (depends_on : list N) (js : gmap N Job) : nat :=
  size (filter (fun kj => kj.1 ∈ depends_on ∧ j_status kj.2 ≠ COMPLETED) js).

(** The status computed under "Determine initial status": it starts as
    PENDING; a non-empty [depends_on] decides by the dependencies alone, and
    only a request without dependencies looks at [scheduled_at]. *)
Definition initial_status_of (depends_on : list N) (scheduled_at : Z)
    (js : gmap N Job) (now : Z) : JobStatus :=
  let initial_status := PENDING in
  match depends_on with
  | _ :: _ =>
      if decide (0 < count_incomplete depends_on js)%nat
      then PENDING else QUEUED
  | [] =>
      if decide (scheduled_at <= now) then QUEUED else initial_status
  end.

(** The row written by the INSERT of [create_job]. The columns the
    statement does not list take their defaults (no result, error, start or
    completion time, progress and retry_count 0). *)
Definition inserted_row (request : CreateJobRequest) (job_id : N)
    (initial_status : JobStatus) (scheduled_at now : Z) : Job :=
  {| j_id := job_id;
     j_client_id := c_client_id request;
     j_job_type := c_job_type request;
     j_status := initial_status;
     j_priority := c_priority request;
     j_config := c_config request;
     j_result := None;
     j_error := None;
     j_progress := 0;
     j_progress_message := None;
     j_scheduled_at := Some scheduled_at;
     j_started_at := None;
     j_completed_at := None;
     j_created_at := now;
     j_updated_at := now;
     j_retry_count := 0;
     j_max_retries := c_max_retries request;
     j_retry_on_failure := c_retry_on_failure request;
     j_timeout_seconds := c_timeout_seconds request;
     j_depends_on := default [] (c_depends_on request);
     j_metadata := c_metadata request |}.

(** [job_id] is the value drawn by [uuid.uuid4()]. *)
Definition create_job (request : CreateJobRequest) (job_id : N) : M Job :=
  s ← get_state;
  match clients s !! c_client_id request with
  | None => raise (mkHTTPException 404 "Client not found")
  | Some _ =>
      let depends_on := default [] (c_depends_on request) in
      check_dependencies depends_on;;
      now ← utcnow;
      let scheduled_at := default now (c_scheduled_at request) in
      s ← get_state;
      now' ← utcnow;
      let initial_status :=
        initial_status_of depends_on scheduled_at (jobs s) now' in
      created ← utcnow;
      let row :=
        inserted_row request job_id initial_status scheduled_at created in
      s ← get_state;
      put_state (set_jobs (<[job_id := row]> (jobs s)) s);;
      (if decide (initial_status = QUEUED)
       then lpush (priority_value (c_priority request)) job_id
       else mret tt);;
      broadcast_job_update
        {| ju_id := job_id;
           ju_client_id := c_client_id request;
           ju_status := initial_status;
           ju_progress := Some 0;
           ju_progress_message := None |};;
      mret row
  end.

(** The SET clause that [update_job] assembles is empty exactly when no
    field of the request is given. *)
Definition no_updates (request : UpdateJobRequest) : bool :=
  match u_status request, u_priority request, u_config request,
        u_scheduled_at request, u_metadata request with
  | None, None, None, None, None => true
  | _, _, _, _, _ => false
  end.

(** The row after the UPDATE built by [update_job]. *)
Definition apply_updates (request : UpdateJobRequest) (now : Z) (j : Job)
  : Job :=
  {| j_id := j_id j;
     j_client_id := j_client_id j;
     j_job_type := j_job_type j;
     j_status := default (j_status j) (u_status request);
     j_priority := default (j_priority j) (u_priority request);
     j_config := default (j_config j) (u_config request);
     j_result := j_result j;
     j_error := j_error j;
     j_progress := j_progress j;
     j_progress_message := j_progress_message j;
     j_scheduled_at :=
       match u_scheduled_at request with
       | Some t => Some t
       | None => j_scheduled_at j
       end;
     j_started_at :=
       match u_status request with
       | Some RUNNING => Some now
       | _ => j_started_at j
       end;
     j_completed_at :=
       match u_status request with
       | Some COMPLETED | Some FAILED | Some CANCELLED => Some now
       | _ => j_completed_at j
       end;
     j_created_at := j_created_at j;
     j_updated_at := now;
     j_retry_count := j_retry_count j;
     j_max_retries := j_max_retries j;
     j_retry_on_failure := j_retry_on_failure j;
     j_timeout_seconds := j_timeout_seconds j;
     j_depends_on := j_depends_on j;
     j_metadata := default (j_metadata j) (u_metadata request) |}.

Definition update_job (job_id : N) (request : UpdateJobRequest) : M Job :=
  s ← get_state;
  match jobs s !! job_id with
  | None => raise (mkHTTPException 404 "Job not found")
  | Some existing =>
      if no_updates request then mret existing
      else
        now ← utcnow;
        let row := apply_updates request now existing in
        put_state (set_jobs (<[job_id := row]> (jobs s)) s);;
        broadcast_job_update
          {| ju_id := job_id;
             ju_client_id := j_client_id row;
             ju_status := j_status row;
             ju_progress := Some (j_progress row);
             ju_progress_message := None |};;
        mret row
  end.

(** The WHERE clause of the UPDATE in [cancel_job] and in [retry_job]. *)
Definition cancellable (st : JobStatus) : bool :=
  match st with
  | PENDING | QUEUED | RUNNING | PAUSED => true
  | _ => false
  end.

Definition retryable (st : JobStatus) : bool :=
  match st with
  | FAILED | CANCELLED => true
  | _ => false
  end.

(** [UPDATE ... SET status = 'cancelled', completed_at = NOW(),
     updated_at = NOW()]. *)
Definition cancelled_row (now : Z) (j : Job) : Job :=
  {| j_id := j_id j;
     j_client_id := j_client_id j;
     j_job_type := j_job_type j;
     j_status := CANCELLED;
     j_priority := j_priority j;
     j_config := j_config j;
     j_result := j_result j;
     j_error := j_error j;
     j_progress := j_progress j;
     j_progress_message := j_progress_message j;
     j_scheduled_at := j_scheduled_at j;
     j_started_at := j_started_at j;
     j_completed_at := Some now;
     j_created_at := j_created_at j;
     j_updated_at := now;
     j_retry_count := j_retry_count j;
     j_max_retries := j_max_retries j;
     j_retry_on_failure := j_retry_on_failure j;
     j_timeout_seconds := j_timeout_seconds j;
     j_depends_on := j_depends_on j;
     j_metadata := j_metadata j |}.

(** [UPDATE ... SET status = 'queued', started_at = NULL,
     completed_at = NULL, error = NULL, result = NULL,
     retry_count = retry_count + 1, updated_at = NOW()]. *)
Definition requeued_row (now : Z) (j : Job) : Job :=
  {| j_id := j_id j;
     j_client_id := j_client_id j;
     j_job_type := j_job_type j;
     j_status := QUEUED;
     j_priority := j_priority j;
     j_config := j_config j;
     j_result := None;
     j_error := None;
     j_progress := j_progress j;
     j_progress_message := j_progress_message j;
     j_scheduled_at := j_scheduled_at j;
     j_started_at := None;
     j_completed_at := None;
     j_created_at := j_created_at j;
     j_updated_at := now;
     j_retry_count := j_retry_count j + 1;
     j_max_retries := j_max_retries j;
     j_retry_on_failure := j_retry_on_failure j;
     j_timeout_seconds := j_timeout_seconds j;
     j_depends_on := j_depends_on j;
     j_metadata := j_metadata j |}.

(** [UPDATE automation_jobs SET ... WHERE id = $1 AND <guard> RETURNING *]:
    the row written, or nothing when no row passes the WHERE clause. *)
Definition update_returning (job_id : N) (guard : JobStatus -> bool)
    (set : Z -> Job -> Job) : M (option Job) :=
  s ← get_state;
  match jobs s !! job_id with
  | Some j =>
      if guard (j_status j) then
        now ← utcnow;
        put_state (set_jobs (<[job_id := set now j]> (jobs s)) s);;
        mret (Some (set now j))
      else mret None
  | None => mret None
  end.

Inductive Response :=
  | JobResponse (job : Job)
  | CancelledResponse (job_id : string)
  | RequeuedResponse (job_id : string) (retry_count : Z).

Definition cancel_job (job_id : N) : M Response :=
  row ← update_returning job_id cancellable cancelled_row;
  match row with
  | None =>
      raise (mkHTTPException 400 "Job cannot be cancelled or not found")
  | Some row =>
      broadcast_job_update
        {| ju_id := job_id;
           ju_client_id := j_client_id row;
           ju_status := CANCELLED;
           ju_progress := None;
           ju_progress_message := None |};;
      mret (CancelledResponse (str_uuid job_id))
  end.

Definition retry_job (job_id : N) : M Response :=
  row ← update_returning job_id retryable requeued_row;
  match row with
  | None =>
      raise (mkHTTPException 400 "Job cannot be retried or not found")
  | Some row =>
      lpush (priority_value (j_priority row)) job_id;;
      broadcast_job_update
        {| ju_id := job_id;
           ju_client_id := j_client_id row;
           ju_status := QUEUED;
           ju_progress := None;
           ju_progress_message := None |};;
      mret (RequeuedResponse (str_uuid job_id) (j_retry_count row))
  end.

(** The four mutating operations behind one type. *)
Inductive Operation :=
  | Create (request : CreateJobRequest) (job_id : N)
  | Update (job_id : N) (request : UpdateJobRequest)
  | Cancel (job_id : N)
  | Retry (job_id : N).

Definition run (op : Operation) : M Response :=
  match op with
  | Create request job_id =>
      job ← create_job request job_id; mret (JobResponse job)
  | Update job_id request =>
      job ← update_job job_id request; mret (JobResponse job)
  | Cancel job_id => cancel_job job_id
  | Retry job_id => retry_job job_id
  end.

Definition op_job_id (op : Operation) : N :=
  match op with
  | Create _ job_id | Update job_id _ | Cancel job_id | Retry job_id => job_id
  end.

(** An update request that names no field: the handler returns the stored
    job before it reaches the UPDATE and the broadcast. *)
Definition is_empty_update (op : Operation) : bool :=
  match op with
  | Update _ request => no_updates request
  | _ => false
  end.

(** ** The route table of the automation router

    The decorators of [automation.py] register the HTTP routes below, in this
    order, under the prefix [/automation]. A request path is the list of its
    segments; a [{name}] parameter of a path matches one non-empty
    segment. *)

Inductive Method := GET | POST | PATCH | PUT | DELETE.

#[global] Instance Method_eq_dec : EqDecision Method.
Proof. solve_decision. Defined.

Inductive Endpoint :=
  | ep_list_jobs | ep_get_job | ep_create_job | ep_update_job
  | ep_cancel_job | ep_retry_job | ep_get_job_stats
  | ep_list_browser_sessions | ep_terminate_session.

#[global] Instance Endpoint_eq_dec : EqDecision Endpoint.
Proof. solve_decision. Defined.

Inductive Segment := Lit (s : string) | Param (name : string).

Record Route := mkRoute {
  r_method : Method;
  r_path : list Segment;
  r_endpoint : Endpoint
}.

Definition routes : list Route :=
  [ mkRoute GET [Lit "automation"; Lit "jobs"] ep_list_jobs;
    mkRoute GET [Lit "automation"; Lit "jobs"; Param "job_id"] ep_get_job;
    mkRoute POST [Lit "automation"; Lit "jobs"] ep_create_job;
    mkRoute PATCH [Lit "automation"; Lit "jobs"; Param "job_id"]
      ep_update_job;
    mkRoute POST [Lit "automation"; Lit "jobs"; Param "job_id"; Lit "cancel"]
      ep_cancel_job;
    mkRoute POST [Lit "automation"; Lit "jobs"; Param "job_id"; Lit "retry"]
      ep_retry_job;
    mkRoute GET [Lit "automation"; Lit "jobs"; Lit "stats"] ep_get_job_stats;
    mkRoute GET [Lit "automation"; Lit "sessions"] ep_list_browser_sessions;
    mkRoute POST
      [Lit "automation"; Lit "sessions"; Param "client_id"; Lit "terminate"]
      ep_terminate_session ].

(** The path parameters bound by a pattern, when the path fits it. *)
Fixpoint match_path (pattern : list Segment) (path : list string)
  : option (list (string * string)) :=
  match pattern, path with
  | [], [] => Some []
  | Lit l :: pattern', seg :: path' =>
      if decide (l = seg) then match_path pattern' path' else None
  | Param name :: pattern', seg :: path' =>
      if decide (seg = "") then None
      else
        match match_path pattern' path' with
        | Some params => Some ((name, seg) :: params)
        | None => None
        end
  | _, _ => None
  end.

Inductive Match :=
  | NoMatch
  | PartialMatch
  | FullMatch (params : list (string * string)).

(** A route whose path fits but whose method differs matches partially. *)
Definition matches (r : Route) (method : Method) (path : list string)
  : Match :=
  match match_path (r_path r) path with
  | None => NoMatch
  | Some params =>
      if decide (method = r_method r) then FullMatch params
      else PartialMatch
  end.

Inductive Resolution :=
  | Resolved (ep : Endpoint) (params : list (string * string))
  | MethodNotAllowed
  | NoRoute.

(** The router walks the routes in registration order and stops at the
    first full match; without one, a partial match answers 405. *)
Fixpoint resolve (rs : list Route) (method : Method) (path : list string)
    (partial : bool) : Resolution :=
  match rs with
  | [] => if partial then MethodNotAllowed else NoRoute
  | r :: rs' =>
      match matches r method path with
      | FullMatch params => Resolved (r_endpoint r) params
      | PartialMatch => resolve rs' method path true
      | NoMatch => resolve rs' method path partial
      end
  end.

(** Conversion of a path parameter declared [uuid.UUID]: hyphens are
    dropped and 32 hexadecimal digits must remain (the [urn:uuid:] prefix
    and the braces that the conversion also tolerates are left out). *)
Definition hex_value (c : ascii) : option N :=
  let n := N_of_ascii c in
  if decide (48 <= n <= 57)%N then Some (n - 48)%N
  else if decide (97 <= n <= 102)%N then Some (n - 87)%N
  else if decide (65 <= n <= 70)%N then Some (n - 55)%N
  else None.

Fixpoint parse_hex (s : string) (acc : N) : option N :=
  match s with
  | EmptyString => Some acc
  | String c s' =>
      match hex_value c with
      | Some v => parse_hex s' (16 * acc + v)%N
      | None => None
      end
  end.

Fixpoint remove_hyphens (s : string) : string :=
  match s with
  | EmptyString => EmptyString
  | String c s' =>
      if decide (c = "-"%char) then remove_hyphens s'
      else String c (remove_hyphens s')
  end.

Definition parse_uuid (s : string) : option N :=
  let hex := remove_hyphens s in
  if decide (String.length hex = 32%nat) then parse_hex hex 0 else None.

(** The endpoints whose path parameter is declared [uuid.UUID]. *)
Definition uuid_parameter (ep : Endpoint) : bool :=
  match ep with
  | ep_get_job | ep_update_job | ep_cancel_job | ep_retry_job => true
  | _ => false
  end.

Inductive Outcome :=
  | Invoke (ep : Endpoint) (job_id : option N)
  | ValidationError (status_code : Z)
  | RouterError (status_code : Z).

Definition handle_request (method : Method) (path : list string) : Outcome :=
  match resolve routes method path false with
  | Resolved ep params =>
      if uuid_parameter ep then
        match params with
        | [(_, value)] =>
            match parse_uuid value with
            | Some u => Invoke ep (Some u)
            | None => ValidationError 422
            end
        | _ => ValidationError 422
        end
      else Invoke ep None
  | MethodNotAllowed => RouterError 405
  | NoRoute => RouterError 404
  end.

(** ** The scheduling loop of [get_schedule_recommendations]

    Times and durations are in microseconds. *)

Definition second : Z := 1000000.
Definition hour : Z := 3600 * second.
Definition timedelta_hours (n : Z) : Z := n * hour.
Definition timedelta_minutes (n : Z) : Z := n * 60 * second.

(** The dict [intervals] and its lookup [intervals.get(jt, 24h)]. *)
Definition intervals (jt : string) : option Z :=
  if decide (jt = "health_check") then Some (timedelta_hours 6)
  else if decide (jt = "menu_sync") then Some (timedelta_hours 24)
  else if decide (jt = "golden_copy") then Some (timedelta_hours 24)
  else if decide (jt = "backup") then Some (timedelta_hours 12)
  else None.

Definition interval_of (jt : string) : Z :=
  default (timedelta_hours 24) (intervals jt).

(** The time before the walk over the busy hours. *)
Definition candidate (last_run : option Z) (interval now : Z) : Z :=
  match last_run with
  | Some last_run =>
      let next_run := last_run + interval in
      if decide (next_run < now) then now + timedelta_minutes 30
      else next_run
  | None => now + timedelta_hours 1
  end.

(** [t.replace(minute=0, second=0)]: the hour of [t] is kept, and so is its
    microsecond field. *)
Definition replace_minute_second (t : Z) : Z :=
  t / hour * hour + t mod second.

(** [date_trunc('hour', t)], the form of the elements of [busy_hours]. *)
Definition date_trunc_hour (t : Z) : Z := t / hour * hour.

(** The loop [while next_run.replace(minute=0, second=0) in busy_hours:
    next_run += 1h], run for at most [fuel] iterations. *)
Fixpoint avoid_busy (fuel : nat) (busy_hours : gset Z) (next_run : Z) : Z :=
  match fuel with
  | O => next_run
  | S fuel' =>
      if decide (replace_minute_second next_run ∈ busy_hours)
      then avoid_busy fuel' busy_hours (next_run + timedelta_hours 1)
      else next_run
  end.

(** The recommended time of one client and job type. Every iteration of the
    loop meets another element of [busy_hours], so [size busy_hours]
    iterations are enough ([avoid_busy_not_busy] below). An entry of
    [last_job_times] whose value is NULL is left out of the map. *)
Definition recommended_time (last_job_times : gmap string Z)
    (busy_hours : gset Z) (jt : string) (now : Z) : Z :=
  let last_run := last_job_times !! jt in
  let interval := interval_of jt in
  avoid_busy (size busy_hours) busy_hours (candidate last_run interval now).

(** [2 if last_run and (now - last_run) > interval * 1.5 else 1]. *)
Definition recommendation_priority (last_run : option Z) (interval now : Z)
  : Z :=
  match last_run with
  | Some last_run =>
      if decide (3 * interval < 2 * (now - last_run)) then 2 else 1
  | None => 1
  end.

(** The busy hours that are not before the hour of [t]: the measure of the
    loop, which leaves one of them behind at every iteration. *)
Definition busy_ahead (busy_hours : gset Z) (t : Z) : gset Z :=
  filter (fun b => replace_minute_second t <= b) busy_hours.

(** What a handler that went through the broadcast of [job] has added to
    the traces, [s] being the state before the handler and [s'] the one
    after it. *)
Definition broadcast_added (s s' : State) (job : JobUpdate) : Prop :=
  emitted s' =
    (emitted s ++ [(str_uuid (ju_client_id job),
                    job_update_message job (clock s))])%list
  ∧ sent s' =
    (sent s ++ map (fun ws => (ws, job_update_message job (clock s)))
                   (listeners s (str_uuid (ju_client_id job))
                    ++ listeners s "global"))%list.

(** The lifecycle edges listed in section 4.1 of the specification, the
    relation the update operation is compared with. *)
Definition lifecycle_edge (from to : JobStatus) : bool :=
  match from, to with
  | PENDING, QUEUED => true
  | QUEUED, RUNNING => true
  | RUNNING, (COMPLETED | FAILED | PAUSED) => true
  | (PENDING | QUEUED | RUNNING | PAUSED), CANCELLED => true
  | (FAILED | CANCELLED), QUEUED => true
  | _, _ => false
  end.

(** ** The rest of the connection manager *)

Definition set_connections (reg : gmap string (list nat)) (s : State)
  : State :=
  mkState (clock s) (clients s) (jobs s) (queues s) reg (emitted s) (sent s).

(** An exception that is no [HTTPException]: it leaves the handler as an
    unhandled error. *)
Inductive PyError := ValueError (msg : string).

(** [list.remove(x)]: the list without the first occurrence of [x], or
    nothing when [x] does not occur, where Python raises [ValueError]. *)
Fixpoint list_remove (x : nat) (l : list nat) : option (list nat) :=
  match l with
  | [] => None
  | y :: l' =>
      if decide (x = y) then Some l'
      else
        match list_remove x l' with
        | Some r => Some (y :: r)
        | None => None
        end
  end.

(** [disconnect]: nothing happens for a key that is not registered;
    otherwise the websocket is removed from the list of the key, and the
    key is deleted when that leaves the list empty. *)
Definition disconnect (websocket : nat) (client_id : string)
  : State -> (PyError + unit) * State := fun s =>
  let reg := active_connections s in
  match reg !! client_id with
  | None => (inr tt, s)
  | Some l =>
      match list_remove websocket l with
      | None => (inl (ValueError "list.remove(x): x not in list"), s)
      | Some [] => (inr tt, set_connections (delete client_id reg) s)
      | Some l' => (inr tt, set_connections (<[client_id := l']> reg) s)
      end
  end.

(** No key of the registry holds an empty list. *)
Definition registry_nonempty (s : State) : Prop :=
  ∀ client_id l, active_connections s !! client_id = Some l → l ≠ [].


(** ** The decision helpers of [intelligence.py] *)

(** [next((r["count"] for r in queue_load if r["hour"] == slot), 0)]: the
    count of the first row of that hour, 0 when there is none. *)
Fixpoint slot_load (queue_load : list (Z * Z)) (slot : Z) : Z :=
  match queue_load with
  | [] => 0
  | (hour_of_row, count) :: rest =>
      if decide (hour_of_row = slot) then count else slot_load rest slot
  end.

(** The slot tried for an hour offset. *)
Definition slot_at (now hour_offset : Z) : Z :=
  replace_minute_second now + timedelta_hours hour_offset.

(** One iteration of the loop of [_make_scheduling_decision]. [min_load]
    starts as [float('inf')], which is [None] here: every load is below
    it. *)
Definition best_slot_step (now : Z) (queue_load : list (Z * Z))
    (st : Z * option Z) (hour_offset : Z) : Z * option Z :=
  let slot := slot_at now hour_offset in
  let load := slot_load queue_load slot in
  match st.2 with
  | Some min_load => if decide (load < min_load) then (slot, Some load) else st
  | None => (slot, Some load)
  end.

(** [range(24)]. *)
Definition hour_offsets : list Z := Z.of_nat <$> seq 0 24.

(** The pair [(best_slot, min_load)] after the loop. *)
Definition find_best_slot (now : Z) (queue_load : list (Z * Z))
  : Z * option Z :=
  foldl (best_slot_step now queue_load) (now + timedelta_hours 1, None)
        hour_offsets.

(** An entry of [request.options]: its name, if it has one, and its numeric
    fields. *)
Record DecisionOption := mkOption {
  o_name : option string;
  o_fields : gmap string Z
}.

Definition option_score (opt : DecisionOption) : Z :=
  let get (k : string) (d : Z) := default d (o_fields opt !! k) in
  0 + get "urgency" 0 * 30
    + get "impact" 0 * 25
    + get "effort_inverse" (10 - get "effort" 5) * 20
    + get "client_value" 0 * 25.

(** [scored_options.sort(key=score, reverse=True)]: the sort is stable, so
    options of equal score keep their order. An option is put before the
    first later option whose score is not greater than its own. *)
Fixpoint insert_by_score (x : DecisionOption * Z)
    (l : list (DecisionOption * Z)) : list (DecisionOption * Z) :=
  match l with
  | [] => [x]
  | y :: l' =>
      if decide (x.2 < y.2) then y :: insert_by_score x l' else x :: y :: l'
  end.

Definition sort_by_score_desc (l : list (DecisionOption * Z))
  : list (DecisionOption * Z) :=
  foldr insert_by_score [] l.

(** The [decision] and the [alternatives] of the answer of
    [_make_prioritization_decision]; the other fields are the same text for
    every request. *)
Definition make_prioritization_decision (options : list DecisionOption)
  : string * list (option string * Z) :=
  match options with
  | [] => ("Unable to prioritize without options", [])
  | _ =>
      let scored_options :=
        sort_by_score_desc ((fun opt => (opt, option_score opt)) <$> options)
      in
      match scored_options with
      | winner :: rest =>
          ("Prioritize: " ++ default "Option 1" (o_name winner.1),
           (fun s : DecisionOption * Z => (o_name s.1, s.2)) <$> take 2 rest)
      | [] => ("", [])
      end
  end.

(** A recommendation generated from the health factors. *)
Record ClientRecommendation := mkRecommendation {
  rec_type : string;
  rec_title : string;
  rec_description : string;
  rec_priority : string
}.

Definition generate_client_recommendations (factors : gmap string Z)
  : list ClientRecommendation :=
  let get (k : string) := default 0 (factors !! k) in
  (if decide (get "engagement" < 50) then
     [mkRecommendation "engagement" "Schedule a check-in call"
        "Low engagement detected. Consider reaching out to understand their needs."
        "high"]
   else [])
  ++ (if decide (get "automation_success" < 70) then
        [mkRecommendation "optimization" "Review failed automations"
           "Automation success rate is below target. Review and fix failing jobs."
           "medium"]
      else [])
  ++ (if decide (get "system_stability" < 80) then
        [mkRecommendation "maintenance" "System stability audit"
           "Higher than normal error rates detected. Conduct stability review."
           "high"]
      else [])
  ++ (if decide (80 < get "growth_potential") then
        [mkRecommendation "upsell" "Upsell opportunity"
           "Client shows strong growth indicators. Consider expanding services."
           "low"]
      else []).

(** [_calculate_health_factors]: the factors computed on integers, from the
    counts the queries return and the plan status of the client; the two
    factors computed in floating point (automation_success and
    support_responsiveness) are taken as they come. *)
Definition calculate_health_factors (activity_count : Z)
    (automation_success support_responsiveness : Z)
    (payment_status : option string) (error_count restaurant_count : Z)
  : gmap string Z :=
  <["growth_potential" := Z.min 100 (restaurant_count * 20 + 40)]>
  (<["system_stability" := Z.max 0 (100 - error_count * 10)]>
  (<["payment_health" :=
       if decide (payment_status = Some "active") then 100
       else if decide (payment_status = Some "pending") then 50 else 0]>
  (<["support_responsiveness" := support_responsiveness]>
  (<["automation_success" := automation_success]>
  (<["engagement" := Z.min 100 (activity_count * 5)]> ∅))))).


(** ** The system health report of [intelligence.py] *)

Module HealthStatus.
Inductive t := HEALTHY | WARNING | CRITICAL | UNKNOWN.
End HealthStatus.

#[global] Instance HealthStatus_eq_dec : EqDecision HealthStatus.t.
Proof. solve_decision. Defined.

(** What a probe inside a [try] gave: the text of the exception it raised,
    or its result. *)
Inductive ProbeResult (A : Type) :=
  | Raised (e : string)
  | Returned (a : A).
Arguments Raised {A} e.
Arguments Returned {A} a.

(** The database probe returns whether the latency was under 100 ms, the
    Redis probe returns normally or not, the browser-service probe returns
    whether the status code was 200. *)
Record Probes := mkProbes {
  db_probe : ProbeResult bool;
  redis_probe : ProbeResult unit;
  browser_probe : ProbeResult bool
}.

Record HealthAlert := mkAlert {
  a_severity : string;
  a_category : string;
  a_message : string
}.

(** The report, with the ["status"] of every component in the order in
    which the components are entered; the latencies, queue sizes and
    metrics that the report passes on are left out. *)
Record SystemHealthReport := mkReport {
  r_status : HealthStatus.t;
  r_components : list (string * string);
  r_alerts : list HealthAlert
}.

Definition overall_status (statuses : list string) : HealthStatus.t :=
  if decide ("critical" ∈ statuses) then HealthStatus.CRITICAL
  else if decide ("warning" ∈ statuses ∨ "unavailable" ∈ statuses)
       then HealthStatus.WARNING
       else HealthStatus.HEALTHY.

Definition get_system_health (probes : Probes)
    (failed_last_hour stale_queued : Z) : SystemHealthReport :=
  let '(database, alerts1) :=
    match db_probe probes with
    | Returned fast => (if fast then "healthy" else "warning", [])
    | Raised e =>
        ("critical", [mkAlert "critical" "database" ("Database error: " ++ e)])
    end in
  let '(redis, alerts2) :=
    match redis_probe probes with
    | Returned _ => ("healthy", [])
    | Raised e =>
        ("critical", [mkAlert "critical" "redis" ("Redis error: " ++ e)])
    end in
  let '(browser_service, alerts3) :=
    match browser_probe probes with
    | Returned ok => (if ok then "healthy" else "warning", [])
    | Raised e =>
        ("unavailable",
         [mkAlert "warning" "browser_service"
            ("Browser service unavailable: " ++ e)])
    end in
  let alerts4 :=
    if decide (5 < failed_last_hour) then
      [mkAlert "warning" "jobs"
         (pretty failed_last_hour ++ " jobs failed in the last hour")]
    else [] in
  let alerts5 :=
    if decide (0 < stale_queued) then
      [mkAlert "warning" "jobs"
         (pretty stale_queued ++ " jobs have been queued for over 30 minutes")]
    else [] in
  let job_queue :=
    if decide (failed_last_hour < 5) then "healthy" else "warning" in
  let components :=
    [("database", database); ("redis", redis);
     ("browser_service", browser_service); ("job_queue", job_queue)] in
  {| r_status := overall_status (components.*2);
     r_components := components;
     r_alerts := (alerts1 ++ alerts2 ++ alerts3 ++ alerts4 ++ alerts5)%list |}.

(** ** Queue statistics *)

(** [COUNT( * ) FILTER (WHERE ...)] over [automation_jobs]. *)
Definition count_jobs (P : Job -> Prop) `{!∀ j, Decision (P j)}
    (js : gmap N Job) : nat :=
  length (filter P ((map_to_list js).*2)).

(** [SELECT key, COUNT( * ) ... GROUP BY key], turned into a dict. *)
Definition group_counts (key : Job -> string) (rows : list Job)
  : gmap string nat :=
  foldr (fun j (acc : gmap string nat) =>
           <[key j := S (default 0%nat (acc !! key j))]> acc) ∅ rows.

Definition active (j : Job) : Prop :=
  j_status j = PENDING ∨ j_status j = QUEUED ∨ j_status j = RUNNING.

#[global] Instance active_dec (j : Job) : Decision (active j).
Proof. unfold active. apply _. Defined.

Definition day : Z := 24 * hour.

(** The counts of [JobQueueStats]; the average duration, a floating-point
    value, is left out. *)
Record JobQueueStats := mkStats {
  total_jobs : nat;
  pending : nat;
  queued : nat;
  running : nat;
  completed_today : nat;
  failed_today : nat;
  by_type : gmap string nat;
  by_priority : gmap string nat
}.

(** [completed_at >= $1], false for a NULL completed_at. *)
Definition completed_since (today : Z) (j : Job) : Prop :=
  match j_completed_at j with
  | Some t => today <= t
  | None => False
  end.

#[global] Instance completed_since_dec (today : Z) (j : Job) :
  Decision (completed_since today j).
Proof. unfold completed_since. destruct (j_completed_at j); apply _. Defined.

Definition get_job_stats : M JobQueueStats :=
  now ← utcnow;
  let today := now / day * day in
  s ← get_state;
  let js := jobs s in
  let since_today := completed_since today in
  mret
    {| total_jobs := count_jobs (fun _ => True) js;
       pending := count_jobs (fun j => j_status j = PENDING) js;
       queued := count_jobs (fun j => j_status j = QUEUED) js;
       running := count_jobs (fun j => j_status j = RUNNING) js;
       completed_today :=
         count_jobs (fun j => j_status j = COMPLETED ∧ since_today j) js;
       failed_today :=
         count_jobs (fun j => j_status j = FAILED ∧ since_today j) js;
       by_type :=
         group_counts (fun j => job_type_value (j_job_type j))
           (filter active ((map_to_list js).*2));
       by_priority :=
         group_counts (fun j => pretty (priority_value (j_priority j)))
           (filter active ((map_to_list js).*2)) |}.

(** The sum of the counts of a dict. *)
Definition sum_counts (m : gmap string nat) : nat :=
  map_fold (fun _ v acc => (v + acc)%nat) 0%nat m.


(** ** Alerts and recommendations of [intelligence.py]

    The tables [alerts] and [recommendations], with the columns the
    handlers write; a jsonb object is a finite map from its keys to its
    values, and a NULL metadata is [None]. *)

Record AlertRow := mkAlertRow {
  al_title : string;
  al_acknowledged : bool;
  al_acknowledged_by : option string;
  al_acknowledged_at : option Z
}.

Record RecommendationRow := mkRecommendationRow {
  rc_title : string;
  rc_status : string;
  rc_metadata : option (gmap string string);
  rc_updated_at : Z
}.

Record IntelligenceState := mkIntelligenceState {
  i_clock : Z;
  alerts : gmap N AlertRow;
  recommendations : gmap N RecommendationRow
}.

(** [UPDATE alerts SET acknowledged = TRUE, acknowledged_by = $2,
     acknowledged_at = NOW() WHERE id = $1 RETURNING *]. *)
Definition acknowledge_alert (alert_id : N) (acknowledged_by : string)
  : IntelligenceState -> (HTTPException + string * string) * IntelligenceState
  := fun s =>
  match alerts s !! alert_id with
  | None => (inl (mkHTTPException 404 "Alert not found"), s)
  | Some row =>
      (inr ("acknowledged", str_uuid alert_id),
       mkIntelligenceState (i_clock s)
         (<[alert_id :=
              mkAlertRow (al_title row) true (Some acknowledged_by)
                (Some (i_clock s))]> (alerts s))
         (recommendations s))
  end.

(** [UPDATE recommendations SET status = 'accepted', updated_at = NOW()
     WHERE id = $1 RETURNING *]. *)
Definition accept_recommendation (rec_id : N)
  : IntelligenceState -> (HTTPException + string * string) * IntelligenceState
  := fun s =>
  match recommendations s !! rec_id with
  | None => (inl (mkHTTPException 404 "Recommendation not found"), s)
  | Some row =>
      (inr ("accepted", str_uuid rec_id),
       mkIntelligenceState (i_clock s) (alerts s)
         (<[rec_id :=
              mkRecommendationRow (rc_title row) "accepted"
                (rc_metadata row) (i_clock s)]> (recommendations s)))
  end.

(** [UPDATE recommendations SET status = 'declined',
     metadata = metadata || $2::jsonb, updated_at = NOW() ...] with
    [$2 = {"decline_reason": reason}]: the concatenation of jsonb objects
    keeps the keys of the left object that the right one does not have,
    and the concatenation with NULL is NULL. *)
Definition decline_recommendation (rec_id : N) (reason : string)
  : IntelligenceState -> (HTTPException + string * string) * IntelligenceState
  := fun s =>
  match recommendations s !! rec_id with
  | None => (inl (mkHTTPException 404 "Recommendation not found"), s)
  | Some row =>
      (inr ("declined", str_uuid rec_id),
       mkIntelligenceState (i_clock s) (alerts s)
         (<[rec_id :=
              mkRecommendationRow (rc_title row) "declined"
                ((fun m => {[ "decline_reason" := reason ]} ∪ m)
                   <$> rc_metadata row)
                (i_clock s)]> (recommendations s)))
  end.

(** ** Sample data used by the examples below *)

Definition sample_job (job_id : N) (st : JobStatus) (retry_count : Z) : Job :=
  {| j_id := job_id;
     j_client_id := 7;
     j_job_type := MENU_SYNC;
     j_status := st;
     j_priority := HIGH;
     j_config := "{}";
     j_result := None;
     j_error := Some "timeout";
     j_progress := 40;
     j_progress_message := None;
     j_scheduled_at := Some 500;
     j_started_at := Some 600;
     j_completed_at := Some 700;
     j_created_at := 400;
     j_updated_at := 700;
     j_retry_count := retry_count;
     j_max_retries := 3;
     j_retry_on_failure := true;
     j_timeout_seconds := 3600;
     j_depends_on := [];
     j_metadata := "{}" |}.

(** One client (id 7), one listener on its channel and one global listener,
    and the given jobs. *)
Definition sample_state (js : gmap N Job) : State :=
  {| clock := 1000;
     clients := {[ 7%N := "Cafe" ]};
     jobs := js;
     queues := ∅;
     active_connections := {[ str_uuid 7 := [1%nat]; "global" := [2%nat] ]};
     emitted := [];
     sent := [] |}.

Definition running_state : State :=
  sample_state {[ 1%N := sample_job 1 RUNNING 0 ]}.

Definition completed_state : State :=
  sample_state {[ 1%N := sample_job 1 COMPLETED 0 ]}.

Definition failed_state : State :=
  sample_state {[ 1%N := sample_job 1 FAILED 0 ]}.

(** A failed job that has used its three retries. *)
Definition exhausted_state : State :=
  sample_state {[ 1%N := sample_job 1 FAILED 3 ]}.

(** A request for client 7 that depends on job 1 and is scheduled for
    time 5000, later than the clock (1000) of the sample states. *)
Definition dependent_request : CreateJobRequest :=
  {| c_client_id := 7;
     c_job_type := MENU_SYNC;
     c_priority := NORMAL;
     c_config := "{}";
     c_scheduled_at := Some 5000;
     c_depends_on := Some [1%N];
     c_retry_on_failure := true;
     c_max_retries := 3;
     c_timeout_seconds := 3600;
     c_metadata := "{}" |}.

(** The same request without the dependency. *)
Definition independent_request : CreateJobRequest :=
  {| c_client_id := 7;
     c_job_type := MENU_SYNC;
     c_priority := NORMAL;
     c_config := "{}";
     c_scheduled_at := Some 5000;
     c_depends_on := None;
     c_retry_on_failure := true;
     c_max_retries := 3;
     c_timeout_seconds := 3600;
     c_metadata := "{}" |}.

(** * Properties *)

(** ** The handler monad and the broadcaster *)

Ltac run_monad :=
  unfold mbind, M_bind, mret, M_ret, raise, get_state, put_state, utcnow;
  cbn beta iota.

Lemma broadcast_to_client_run (client_id : string) (message : Message)
    (s : State) :
  ∃ s', broadcast_to_client client_id message s = (inr tt, s')
    ∧ clock s' = clock s ∧ clients s' = clients s
    ∧ jobs s' = jobs s ∧ queues s' = queues s
    ∧ emitted s' = (emitted s ++ [(client_id, message)])%list
    ∧ sent s' =
        (sent s ++ map (fun ws => (ws, message))
                       (listeners s client_id ++ listeners s "global"))%list.
Proof.
  unfold broadcast_to_client, listeners.
  destruct (active_connections s !! client_id) as [l|];
    eexists; repeat split.
Qed.

Lemma broadcast_job_update_run (job : JobUpdate) (s : State) :
  ∃ s', broadcast_job_update job s = (inr tt, s')
    ∧ clock s' = clock s ∧ clients s' = clients s
    ∧ jobs s' = jobs s ∧ queues s' = queues s
    ∧ emitted s' =
        (emitted s ++ [(str_uuid (ju_client_id job),
                        job_update_message job (clock s))])%list
    ∧ sent s' =
        (sent s ++ map (fun ws => (ws, job_update_message job (clock s)))
                       (listeners s (str_uuid (ju_client_id job))
                        ++ listeners s "global"))%list.
Proof.
  unfold broadcast_job_update. run_monad.
  apply broadcast_to_client_run.
Qed.

(** What [update_returning] does on a row that passes the guard, on a row
    that does not, and on a missing row. *)
Lemma update_returning_hit job_id guard set s j :
  jobs s !! job_id = Some j → guard (j_status j) = true →
  update_returning job_id guard set s =
    (inr (Some (set (clock s) j)),
     set_jobs (<[job_id := set (clock s) j]> (jobs s)) s).
Proof.
  intros Hj Hg. unfold update_returning. run_monad.
  rewrite Hj, Hg. reflexivity.
Qed.

Lemma update_returning_miss job_id guard set s :
  (∀ j, jobs s !! job_id = Some j → guard (j_status j) = false) →
  update_returning job_id guard set s = (inr None, s).
Proof.
  intros H. unfold update_returning. run_monad.
  destruct (jobs s !! job_id) as [j|] eqn:Hj; [|reflexivity].
  rewrite (H j eq_refl). reflexivity.
Qed.

Lemma cancellable_iff st :
  cancellable st = true ↔ st ∈ [PENDING; QUEUED; RUNNING; PAUSED].
Proof.
  rewrite !elem_of_cons, elem_of_nil.
  destruct st; simpl; intuition congruence.
Qed.

Lemma retryable_iff st :
  retryable st = true ↔ st ∈ [FAILED; CANCELLED].
Proof.
  rewrite !elem_of_cons, elem_of_nil.
  destruct st; simpl; intuition congruence.
Qed.

Lemma not_cancellable_iff st :
  cancellable st = false ↔ st ∈ [COMPLETED; FAILED; CANCELLED].
Proof.
  rewrite !elem_of_cons, elem_of_nil.
  destruct st; simpl; intuition congruence.
Qed.

Lemma cancel_job_hit (s : State) (job_id : N) (j : Job) :
  jobs s !! job_id = Some j → cancellable (j_status j) = true →
  ∃ s', cancel_job job_id s =
          (inr (CancelledResponse (str_uuid job_id)), s')
    ∧ jobs s' = <[job_id := cancelled_row (clock s) j]> (jobs s)
    ∧ queues s' = queues s
    ∧ broadcast_added s s'
        (mkJobUpdate job_id (j_client_id j) CANCELLED None None).
Proof.
  intros Hj Hc. unfold cancel_job.
  unfold mbind at 1. unfold M_bind.
  rewrite (update_returning_hit _ _ _ _ _ Hj Hc).
  run_monad.
  match goal with
  | |- context [broadcast_job_update ?ju ?st] =>
      destruct (broadcast_job_update_run ju st)
        as (s' & -> & _ & _ & Hjobs & Hq & Hem & Hsent)
  end.
  exists s'. repeat split; assumption.
Qed.

Lemma cancel_job_miss (s : State) (job_id : N) :
  (∀ j, jobs s !! job_id = Some j → cancellable (j_status j) = false) →
  cancel_job job_id s =
    (inl (mkHTTPException 400 "Job cannot be cancelled or not found"), s).
Proof.
  intros H. unfold cancel_job. unfold mbind at 1. unfold M_bind.
  rewrite update_returning_miss; [reflexivity|exact H].
Qed.

Lemma retry_job_hit (s : State) (job_id : N) (j : Job) :
  jobs s !! job_id = Some j → retryable (j_status j) = true →
  ∃ s', retry_job job_id s =
          (inr (RequeuedResponse (str_uuid job_id) (j_retry_count j + 1)),
           s')
    ∧ jobs s' = <[job_id := requeued_row (clock s) j]> (jobs s)
    ∧ queues s' =
        <[priority_value (j_priority j) :=
            job_id :: default [] (queues s !! priority_value (j_priority j))]>
          (queues s)
    ∧ broadcast_added s s'
        (mkJobUpdate job_id (j_client_id j) QUEUED None None).
Proof.
  intros Hj Hc. unfold retry_job.
  unfold mbind at 1. unfold M_bind.
  rewrite (update_returning_hit _ _ _ _ _ Hj Hc).
  unfold lpush. run_monad.
  match goal with
  | |- context [broadcast_job_update ?ju ?st] =>
      destruct (broadcast_job_update_run ju st)
        as (s' & -> & _ & _ & Hjobs & Hq & Hem & Hsent)
  end.
  exists s'. repeat split; assumption.
Qed.

Lemma retry_job_miss (s : State) (job_id : N) :
  (∀ j, jobs s !! job_id = Some j → retryable (j_status j) = false) →
  retry_job job_id s =
    (inl (mkHTTPException 400 "Job cannot be retried or not found"), s).
Proof.
  intros H. unfold retry_job. unfold mbind at 1. unfold M_bind.
  rewrite update_returning_miss; [reflexivity|exact H].
Qed.

Lemma update_job_hit (s : State) (job_id : N) (request : UpdateJobRequest)
    (j : Job) :
  jobs s !! job_id = Some j → no_updates request = false →
  ∃ s', update_job job_id request s =
          (inr (apply_updates request (clock s) j), s')
    ∧ jobs s' = <[job_id := apply_updates request (clock s) j]> (jobs s)
    ∧ queues s' = queues s
    ∧ broadcast_added s s'
        (mkJobUpdate job_id (j_client_id j)
           (default (j_status j) (u_status request))
           (Some (j_progress j)) None).
Proof.
  intros Hj Hn. unfold update_job. run_monad.
  rewrite Hj, Hn.
  match goal with
  | |- context [broadcast_job_update ?ju ?st] =>
      destruct (broadcast_job_update_run ju st)
        as (s' & -> & _ & _ & Hjobs & Hq & Hem & Hsent)
  end.
  exists s'. repeat split; assumption.
Qed.

Lemma update_job_empty (s : State) (job_id : N) (request : UpdateJobRequest)
    (j : Job) :
  jobs s !! job_id = Some j → no_updates request = true →
  update_job job_id request s = (inr j, s).
Proof.
  intros Hj Hn. unfold update_job. run_monad. rewrite Hj, Hn. reflexivity.
Qed.

Lemma update_job_missing (s : State) (job_id : N)
    (request : UpdateJobRequest) :
  jobs s !! job_id = None →
  update_job job_id request s =
    (inl (mkHTTPException 404 "Job not found"), s).
Proof.
  intros Hj. unfold update_job. run_monad. rewrite Hj. reflexivity.
Qed.

Lemma check_dependencies_found (depends_on : list N) (s : State) :
  (∀ d, d ∈ depends_on → is_Some (jobs s !! d)) →
  check_dependencies depends_on s = (inr tt, s).
Proof.
  induction depends_on as [|d rest IH]; intros Hall; [reflexivity|].
  simpl. run_monad.
  destruct (Hall d) as [j Hj]; [left|]. rewrite Hj.
  apply IH. intros d' Hd'. apply Hall. by right.
Qed.

Lemma check_dependencies_unknown (depends_on : list N) (s : State) :
  (∃ d, d ∈ depends_on ∧ jobs s !! d = None) →
  ∃ d, d ∈ depends_on ∧ jobs s !! d = None
    ∧ check_dependencies depends_on s =
        (inl (mkHTTPException 400
                ("Dependency job " ++ str_uuid d ++ " not found")), s).
Proof.
  induction depends_on as [|d rest IH]; intros (d0 & Hin & Hnone).
  - inversion Hin.
  - simpl. run_monad.
    destruct (jobs s !! d) as [j|] eqn:Hd.
    + destruct IH as (d1 & Hin1 & Hnone1 & Hrun).
      * exists d0. split; [|exact Hnone].
        apply elem_of_cons in Hin as [->|Hin]; [congruence|exact Hin].
      * exists d1. split; [by right|]. split; [exact Hnone1|exact Hrun].
    + exists d. split; [left|]. split; [exact Hd|reflexivity].
Qed.

Lemma create_job_hit (s : State) (request : CreateJobRequest) (job_id : N) :
  is_Some (clients s !! c_client_id request) →
  (∀ d, d ∈ default [] (c_depends_on request) → is_Some (jobs s !! d)) →
  let initial_status :=
    initial_status_of (default [] (c_depends_on request))
      (default (clock s) (c_scheduled_at request)) (jobs s) (clock s) in
  let row :=
    inserted_row request job_id initial_status
      (default (clock s) (c_scheduled_at request)) (clock s) in
  ∃ s', create_job request job_id s = (inr row, s')
    ∧ jobs s' = <[job_id := row]> (jobs s)
    ∧ queues s' =
        (if decide (initial_status = QUEUED)
         then <[priority_value (c_priority request) :=
                  job_id :: default []
                    (queues s !! priority_value (c_priority request))]>
                (queues s)
         else queues s)
    ∧ broadcast_added s s'
        (mkJobUpdate job_id (c_client_id request) initial_status
           (Some 0) None).
Proof.
  intros [name Hc] Hdeps initial_status row.
  unfold create_job. run_monad. rewrite Hc.
  rewrite (check_dependencies_found _ _ Hdeps). cbn beta iota.
  fold initial_status. fold row.
  destruct (decide (initial_status = QUEUED)) as [Hq|Hq]; unfold lpush;
    cbn beta iota;
    match goal with
    | |- context [broadcast_job_update ?ju ?st] =>
        destruct (broadcast_job_update_run ju st)
          as (s' & -> & _ & _ & Hjobs & Hqs & Hem & Hsent)
    end;
    exists s'; repeat split; assumption.
Qed.

(** ** Update *)

(** Against C1 as stated: [update_job] writes the requested status over a
    COMPLETED job although COMPLETED to PENDING is no edge of the
    lifecycle. *)
Lemma update_job_completed_to_pending :
  lifecycle_edge COMPLETED PENDING = false
  ∧ j_status <$> (jobs completed_state !! 1%N) = Some COMPLETED
  ∧ j_status <$>
      match update_job 1 (mkUpdate (Some PENDING) None None None None)
              completed_state with
      | (inr job, _) => Some job
      | (inl _, _) => None
      end = Some PENDING
  ∧ j_status <$>
      (jobs (update_job 1 (mkUpdate (Some PENDING) None None None None)
               completed_state).2 !! 1%N) = Some PENDING.
Proof. vm_compute. repeat split. Qed.

(** C1, amended. [update_job] checks no edge: for a stored job and a request
    carrying a status, the update succeeds whatever the current status is and
    stores the requested status (with started_at set on RUNNING and
    completed_at on COMPLETED, FAILED and CANCELLED), leaving the other rows
    as they were; the only failure of [update_job] is the 404 of a job that
    is not stored. *)
Theorem update_job_overwrites_status (s : State) (job_id : N)
    (request : UpdateJobRequest) :
  (∀ j st,
     jobs s !! job_id = Some j → u_status request = Some st →
     ∃ s' j',
       update_job job_id request s = (inr j', s')
       ∧ jobs s' = <[job_id := j']> (jobs s)
       ∧ j_status j' = st
       ∧ (st = RUNNING → j_started_at j' = Some (clock s))
       ∧ (st ∈ [COMPLETED; FAILED; CANCELLED] →
          j_completed_at j' = Some (clock s)))
  ∧ (∀ e s',
       update_job job_id request s = (inl e, s') →
       e = mkHTTPException 404 "Job not found"
       ∧ jobs s !! job_id = None ∧ s' = s).
Proof.
  split.
  - intros j st Hj Hst.
    assert (Hn : no_updates request = false).
    { unfold no_updates. rewrite Hst. reflexivity. }
    destruct (update_job_hit s job_id request j Hj Hn)
      as (s' & Hrun & Hjobs & _).
    exists s', (apply_updates request (clock s) j).
    split; [exact Hrun|]. split; [exact Hjobs|].
    simpl. rewrite Hst. simpl. split; [reflexivity|]. split.
    + intros ->. reflexivity.
    + rewrite !elem_of_cons, elem_of_nil.
      intros [->|[->|[->|[]]]]; reflexivity.
  - intros e s' Hrun.
    destruct (jobs s !! job_id) as [j|] eqn:Hj.
    + destruct (no_updates request) eqn:Hn.
      * rewrite (update_job_empty s job_id request j Hj Hn) in Hrun.
        discriminate.
      * destruct (update_job_hit s job_id request j Hj Hn)
          as (s1 & Hrun1 & _).
        rewrite Hrun1 in Hrun. discriminate.
    + rewrite (update_job_missing s job_id request Hj) in Hrun.
      inversion Hrun. auto.
Qed.

Lemma update_job_overwrites_status_witness :
  ∃ s' j',
    update_job 1 (mkUpdate (Some RUNNING) None None None None)
      completed_state = (inr j', s')
    ∧ j_status j' = RUNNING
    ∧ j_started_at j' = Some 1000.
Proof.
  destruct (update_job_overwrites_status completed_state 1
              (mkUpdate (Some RUNNING) None None None None))
    as [Happly _].
  destruct (Happly (sample_job 1 COMPLETED 0) RUNNING eq_refl eq_refl)
    as (s' & j' & Hrun & _ & Hst & Hstarted & _).
  exists s', j'. split; [exact Hrun|]. split; [exact Hst|].
  exact (Hstarted eq_refl).
Defined.

(** ** Retry and its budget *)

(** Against C2 as stated: a failed job with retry_count = max_retries = 3
    is retried all the same and ends with retry_count 4. *)
Lemma retry_job_beyond_budget :
  j_retry_count <$> (jobs exhausted_state !! 1%N) = Some 3
  ∧ j_max_retries <$> (jobs exhausted_state !! 1%N) = Some 3
  ∧ (retry_job 1 exhausted_state).1 = inr (RequeuedResponse (str_uuid 1) 4)
  ∧ j_retry_count <$> (jobs (retry_job 1 exhausted_state).2 !! 1%N) = Some 4
  ∧ j_max_retries <$> (jobs (retry_job 1 exhausted_state).2 !! 1%N) = Some 3.
Proof. vm_compute. repeat split. Qed.

(** C2, amended. [retry_job] succeeds exactly when the job is stored with
    status FAILED or CANCELLED; retry_count and max_retries are not
    compared, so a successful retry adds one to retry_count whatever
    max_retries is; every other request fails with the status-400 error
    and changes nothing. *)
Theorem retry_job_succeeds_iff_failed_or_cancelled (s : State) (job_id : N) :
  ((∃ r s', retry_job job_id s = (inr r, s'))
     ↔ ∃ j, jobs s !! job_id = Some j ∧ j_status j ∈ [FAILED; CANCELLED])
  ∧ (∀ j, jobs s !! job_id = Some j → j_status j ∈ [FAILED; CANCELLED] →
       ∃ s',
         retry_job job_id s =
           (inr (RequeuedResponse (str_uuid job_id) (j_retry_count j + 1)),
            s')
         ∧ j_retry_count <$> (jobs s' !! job_id)
           = Some (j_retry_count j + 1))
  ∧ ((¬ ∃ j, jobs s !! job_id = Some j ∧ j_status j ∈ [FAILED; CANCELLED]) →
       retry_job job_id s =
         (inl (mkHTTPException 400 "Job cannot be retried or not found"), s)).
Proof.
  assert (Hmiss :
    (¬ ∃ j, jobs s !! job_id = Some j ∧ j_status j ∈ [FAILED; CANCELLED]) →
    retry_job job_id s =
      (inl (mkHTTPException 400 "Job cannot be retried or not found"), s)).
  { intros Hno. apply retry_job_miss. intros j Hj.
    destruct (retryable (j_status j)) eqn:Hr; [|reflexivity].
    exfalso. apply Hno. exists j. split; [exact Hj|].
    by apply retryable_iff. }
  split; [|split]; [| |exact Hmiss].
  - split.
    + intros (r & s' & Hrun).
      destruct (jobs s !! job_id) as [j|] eqn:Hj.
      * destruct (retryable (j_status j)) eqn:Hr.
        -- exists j. split; [reflexivity|]. by apply retryable_iff.
        -- rewrite retry_job_miss in Hrun; [discriminate|].
           intros j0 Hj0. congruence.
      * rewrite retry_job_miss in Hrun; [discriminate|].
        intros j0 Hj0. congruence.
    + intros (j & Hj & Hst). apply retryable_iff in Hst.
      destruct (retry_job_hit s job_id j Hj Hst) as (s' & Hrun & _).
      eauto.
  - intros j Hj Hst. apply retryable_iff in Hst.
    destruct (retry_job_hit s job_id j Hj Hst) as (s' & Hrun & Hjobs & _).
    exists s'. split; [exact Hrun|].
    rewrite Hjobs, lookup_insert_eq. reflexivity.
Qed.

Lemma retry_job_succeeds_iff_failed_or_cancelled_witness :
  ∃ s',
    retry_job 1 exhausted_state =
      (inr (RequeuedResponse (str_uuid 1) 4), s')
    ∧ j_retry_count <$> (jobs s' !! 1%N) = Some 4.
Proof.
  destruct (retry_job_succeeds_iff_failed_or_cancelled exhausted_state 1)
    as (_ & Hhit & _).
  apply (Hhit (sample_job 1 FAILED 3) eq_refl).
  apply list_elem_of_In. simpl. tauto.
Defined.

(** C6. On a stored job whose status is FAILED or CANCELLED, [retry_job]
    succeeds; the stored job then has retry_count one higher, error, result,
    started_at and completed_at null and status QUEUED, every other field
    except updated_at as before; the other rows are untouched, and the job
    id is pushed on the queue of the job's priority, the other queues being
    untouched. *)
Theorem retry_job_requeues (s : State) (job_id : N) (j : Job) :
  jobs s !! job_id = Some j →
  j_status j ∈ [FAILED; CANCELLED] →
  ∃ s' j',
    retry_job job_id s =
      (inr (RequeuedResponse (str_uuid job_id) (j_retry_count j + 1)), s')
    ∧ jobs s' = <[job_id := j']> (jobs s)
    ∧ j_retry_count j' = j_retry_count j + 1
    ∧ j_error j' = None ∧ j_result j' = None
    ∧ j_started_at j' = None ∧ j_completed_at j' = None
    ∧ j_status j' = QUEUED
    ∧ j_id j' = j_id j ∧ j_client_id j' = j_client_id j
    ∧ j_job_type j' = j_job_type j ∧ j_priority j' = j_priority j
    ∧ j_config j' = j_config j ∧ j_progress j' = j_progress j
    ∧ j_progress_message j' = j_progress_message j
    ∧ j_scheduled_at j' = j_scheduled_at j
    ∧ j_created_at j' = j_created_at j
    ∧ j_max_retries j' = j_max_retries j
    ∧ j_retry_on_failure j' = j_retry_on_failure j
    ∧ j_timeout_seconds j' = j_timeout_seconds j
    ∧ j_depends_on j' = j_depends_on j ∧ j_metadata j' = j_metadata j
    ∧ queues s' =
        <[priority_value (j_priority j) :=
            job_id :: default [] (queues s !! priority_value (j_priority j))]>
          (queues s).
Proof.
  intros Hj Hst. apply retryable_iff in Hst.
  destruct (retry_job_hit s job_id j Hj Hst) as (s' & Hrun & Hjobs & Hq & _).
  exists s', (requeued_row (clock s) j).
  rewrite Hrun, Hjobs, Hq. simpl. repeat split.
Qed.

Lemma retry_job_requeues_witness :
  ∃ s' j',
    retry_job 1 failed_state = (inr (RequeuedResponse (str_uuid 1) 1), s')
    ∧ jobs s' !! 1%N = Some j'
    ∧ j_retry_count j' = 1 ∧ j_status j' = QUEUED ∧ j_error j' = None
    ∧ queues s' !! 2 = Some [1%N].
Proof.
  destruct (retry_job_requeues failed_state 1 (sample_job 1 FAILED 0) eq_refl)
    as (s' & j' & Hrun & Hjobs & Hcount & Herr & _ & _ & _ & Hst & Hrest).
  { apply list_elem_of_In. simpl. tauto. }
  destruct Hrest as (_ & _ & _ & _ & _ & _ & _ & _ & _ & _ & _ & _ & _
                      & _ & Hq).
  exists s', j'.
  split; [exact Hrun|]. split; [rewrite Hjobs; apply lookup_insert_eq|].
  split; [exact Hcount|]. split; [exact Hst|]. split; [exact Herr|].
  rewrite Hq. reflexivity.
Defined.

(** ** Cancel *)

(** C5. For a stored job, [cancel_job] succeeds exactly when the status is
    PENDING, QUEUED, RUNNING or PAUSED, and then stores the job with status
    CANCELLED (other rows untouched) and emits one event; on COMPLETED,
    FAILED or CANCELLED it fails with the status-400 error of an ineligible
    state, and the whole state (job table, queues, registry, event and send
    traces) is the one before the call. *)
Theorem cancel_job_from_active_only (s : State) (job_id : N) (j : Job) :
  jobs s !! job_id = Some j →
  ((∃ r s', cancel_job job_id s = (inr r, s'))
     ↔ j_status j ∈ [PENDING; QUEUED; RUNNING; PAUSED])
  ∧ (j_status j ∈ [PENDING; QUEUED; RUNNING; PAUSED] →
       ∃ s' j',
         cancel_job job_id s = (inr (CancelledResponse (str_uuid job_id)), s')
         ∧ jobs s' = <[job_id := j']> (jobs s)
         ∧ j_status j' = CANCELLED
         ∧ j_client_id j' = j_client_id j
         ∧ length (emitted s') = S (length (emitted s)))
  ∧ (j_status j ∈ [COMPLETED; FAILED; CANCELLED] →
       cancel_job job_id s =
         (inl (mkHTTPException 400 "Job cannot be cancelled or not found"),
          s)).
Proof.
  intros Hj.
  assert (Hterminal : cancellable (j_status j) = false →
    cancel_job job_id s =
      (inl (mkHTTPException 400 "Job cannot be cancelled or not found"), s)).
  { intros Hc. apply cancel_job_miss. intros j0 Hj0. congruence. }
  split; [|split].
  - rewrite <- cancellable_iff. split.
    + intros (r & s' & Hrun).
      destruct (cancellable (j_status j)) eqn:Hc; [done|].
      rewrite (Hterminal eq_refl) in Hrun. discriminate.
    + intros Hc.
      destruct (cancel_job_hit s job_id j Hj Hc) as (s' & Hrun & _). eauto.
  - rewrite <- cancellable_iff. intros Hc.
    destruct (cancel_job_hit s job_id j Hj Hc)
      as (s' & Hrun & Hjobs & _ & Hem & _).
    exists s', (cancelled_row (clock s) j).
    repeat split; try done.
    rewrite Hem, length_app. simpl. lia.
  - rewrite <- not_cancellable_iff. exact Hterminal.
Qed.

Lemma cancel_job_from_active_only_witness :
  jobs running_state !! 1%N = Some (sample_job 1 RUNNING 0)
  ∧ ∃ s' j',
      cancel_job 1 running_state =
        (inr (CancelledResponse (str_uuid 1)), s')
      ∧ jobs s' = <[1%N := j']> (jobs running_state)
      ∧ j_status j' = CANCELLED
      ∧ j_client_id j' = 7%N
      ∧ length (emitted s') = 1%nat.
Proof.
  split; [reflexivity|].
  apply (cancel_job_from_active_only running_state 1
           (sample_job 1 RUNNING 0));
    [reflexivity|].
  simpl. apply list_elem_of_In. simpl. tauto.
Defined.

(** C10. [cancel_job] answers a request for a job id that is not stored and
    a request for a stored job in an ineligible state with one and the same
    error, status 400 and the combined detail; so does [retry_job]; in each
    case the state is left as it was. *)
Theorem cancel_retry_not_found_is_ineligible
    (s1 s2 : State) (missing present : N) (j : Job) :
  jobs s1 !! missing = None →
  jobs s2 !! present = Some j →
  (j_status j ∈ [COMPLETED; FAILED; CANCELLED] →
     cancel_job missing s1 =
       (inl (mkHTTPException 400 "Job cannot be cancelled or not found"), s1)
     ∧ cancel_job present s2 =
       (inl (mkHTTPException 400 "Job cannot be cancelled or not found"), s2))
  ∧ (j_status j ∉ [FAILED; CANCELLED] →
     retry_job missing s1 =
       (inl (mkHTTPException 400 "Job cannot be retried or not found"), s1)
     ∧ retry_job present s2 =
       (inl (mkHTTPException 400 "Job cannot be retried or not found"), s2)).
Proof.
  intros Hmissing Hpresent. split.
  - intros Hst. apply not_cancellable_iff in Hst.
    split; apply cancel_job_miss; intros j0 Hj0; congruence.
  - intros Hst.
    assert (Hr : retryable (j_status j) = false).
    { destruct (retryable (j_status j)) eqn:Hr; [|reflexivity].
      exfalso. apply Hst. by apply retryable_iff. }
    split; apply retry_job_miss; intros j0 Hj0; congruence.
Qed.

Lemma cancel_retry_not_found_is_ineligible_witness :
  (cancel_job 2 completed_state).1 = (cancel_job 1 completed_state).1
  ∧ (retry_job 2 completed_state).1 = (retry_job 1 completed_state).1.
Proof.
  destruct (cancel_retry_not_found_is_ineligible
              completed_state completed_state 2 1
              (sample_job 1 COMPLETED 0) eq_refl eq_refl)
    as [Hcancel Hretry].
  destruct Hcancel as [-> ->].
  { apply list_elem_of_In. simpl. tauto. }
  destruct Hretry as [-> ->].
  { intros Hin. apply list_elem_of_In in Hin. simpl in Hin.
    destruct Hin as [Hin|[Hin|[]]]; discriminate Hin. }
  split; reflexivity.
Defined.

(** ** Create *)

Lemma count_incomplete_zero (depends_on : list N) (js : gmap N Job) :
  count_incomplete depends_on js = 0%nat
  ↔ ∀ d j, d ∈ depends_on → js !! d = Some j → j_status j = COMPLETED.
Proof.
  unfold count_incomplete. rewrite map_size_empty_iff, map_empty.
  split.
  - intros Hall d j Hin Hj.
    destruct (decide (j_status j = COMPLETED)) as [|Hne]; [done|].
    specialize (Hall d).
    apply map_lookup_filter_None in Hall as [Hnone|Hnot]; [congruence|].
    exfalso. apply (Hnot j Hj). simpl. done.
  - intros Hall d. apply map_lookup_filter_None.
    destruct (js !! d) as [j|] eqn:Hj; [right|by left].
    intros j' [= <-] [Hin Hne]. simpl in *. eauto.
Qed.

(** The status chosen at creation, case by case. *)
Lemma initial_status_of_queued (depends_on : list N) (scheduled_at : Z)
    (js : gmap N Job) (now : Z) :
  initial_status_of depends_on scheduled_at js now = QUEUED
  ↔ (depends_on ≠ []
     ∧ ∀ d j, d ∈ depends_on → js !! d = Some j → j_status j = COMPLETED)
    ∨ (depends_on = [] ∧ scheduled_at <= now).
Proof.
  unfold initial_status_of. destruct depends_on as [|d rest].
  - destruct (decide (scheduled_at <= now)) as [Hle|Hgt].
    + split; [intros _; right; done|done].
    + split; [done|intros [[? _]|[_ ?]]; done].
  - rewrite <- count_incomplete_zero.
    destruct (decide (0 < count_incomplete (d :: rest) js)%nat) as [Hpos|Hz].
    + split; [done|intros [[_ Hc]|[? _]]; [lia|done]].
    + split; [intros _; left; split; [done|lia]|done].
Qed.

(** C3. The claim at a request the code handles otherwise: the only
    dependency (job 1) is COMPLETED and scheduled_at (5000) is later than
    now (1000), and [create_job] stores the job as QUEUED and pushes it on
    the queue of its priority; the same request without dependencies is
    stored as PENDING and not queued. *)
Theorem create_job_queues_before_schedule :
  j_status <$> (jobs completed_state !! 1%N) = Some COMPLETED
  ∧ clock completed_state < 5000
  ∧ j_status <$> (jobs (create_job dependent_request 2 completed_state).2
                    !! 2%N) = Some QUEUED
  ∧ j_scheduled_at <$> (jobs (create_job dependent_request 2 completed_state).2
                          !! 2%N) = Some (Some 5000)
  ∧ queues (create_job dependent_request 2 completed_state).2 !! 1
    = Some [2%N]
  ∧ j_status <$> (jobs (create_job independent_request 2 completed_state).2
                    !! 2%N) = Some PENDING
  ∧ queues (create_job independent_request 2 completed_state).2 !! 1 = None.
Proof. vm_compute. repeat split. Qed.

(** C7. [create_job] rejects a request whose client id is not in the client
    table with the 404 error "Client not found", and a request whose client
    is known and whose depends_on names a job that is not stored with the
    status-400 error "Dependency job <id> not found" for such an id; in both
    cases the state after the call is the state before it: no job is
    stored, nothing is queued, nothing is broadcast. *)
Theorem create_job_rejects_unknown_references (s : State)
    (request : CreateJobRequest) (job_id : N) :
  (clients s !! c_client_id request = None →
     create_job request job_id s =
       (inl (mkHTTPException 404 "Client not found"), s))
  ∧ (is_Some (clients s !! c_client_id request) →
     (∃ d, d ∈ default [] (c_depends_on request) ∧ jobs s !! d = None) →
     ∃ d, d ∈ default [] (c_depends_on request) ∧ jobs s !! d = None
       ∧ create_job request job_id s =
           (inl (mkHTTPException 400
                   ("Dependency job " ++ str_uuid d ++ " not found")), s)).
Proof.
  split.
  - intros Hc. unfold create_job. run_monad. rewrite Hc. reflexivity.
  - intros [name Hc] Hunknown.
    destruct (check_dependencies_unknown _ s Hunknown)
      as (d & Hin & Hnone & Hrun).
    exists d. split; [exact Hin|]. split; [exact Hnone|].
    unfold create_job. run_monad. rewrite Hc, Hrun. reflexivity.
Qed.

Lemma create_job_rejects_unknown_references_witness :
  create_job (mkCreate 8 MENU_SYNC NORMAL "{}" None None true 3 3600 "{}")
    2 completed_state =
    (inl (mkHTTPException 404 "Client not found"), completed_state)
  ∧ ∃ d, d ∈ [5%N] ∧ jobs completed_state !! d = None
      ∧ create_job
          (mkCreate 7 MENU_SYNC NORMAL "{}" None (Some [5%N]) true 3 3600
             "{}")
          2 completed_state =
          (inl (mkHTTPException 400
                  ("Dependency job " ++ str_uuid d ++ " not found")),
           completed_state).
Proof.
  split.
  - apply (create_job_rejects_unknown_references completed_state
             (mkCreate 8 MENU_SYNC NORMAL "{}" None None true 3 3600 "{}") 2).
    reflexivity.
  - apply (create_job_rejects_unknown_references completed_state
             (mkCreate 7 MENU_SYNC NORMAL "{}" None (Some [5%N]) true 3 3600
                "{}") 2).
    + exists "Cafe". reflexivity.
    + exists 5%N. split; [left|reflexivity].
Defined.

(** ** Broadcast *)

(** A successful [create_job] had a known client and known dependencies. *)
Lemma create_job_success_inv (s s' : State) (request : CreateJobRequest)
    (job_id : N) (row : Job) :
  create_job request job_id s = (inr row, s') →
  is_Some (clients s !! c_client_id request)
  ∧ ∀ d, d ∈ default [] (c_depends_on request) → is_Some (jobs s !! d).
Proof.
  intros Hrun.
  destruct (clients s !! c_client_id request) as [name|] eqn:Hc.
  - split; [eauto|].
    apply Forall_forall.
    destruct (decide (Forall (fun d => is_Some (jobs s !! d))
                             (default [] (c_depends_on request))))
      as [Hall|Hnot]; [exact Hall|].
    exfalso. apply not_Forall_Exists in Hnot; [|apply _].
    apply Exists_exists in Hnot as (d & Hin & Hd).
    assert (Hnone : jobs s !! d = None)
      by (apply eq_None_not_Some; exact Hd).
    destruct (check_dependencies_unknown _ s
                (ex_intro _ d (conj Hin Hnone)))
      as (d' & _ & _ & Hfail).
    unfold create_job in Hrun. revert Hrun. run_monad.
    rewrite Hc, Hfail. discriminate.
  - unfold create_job in Hrun. revert Hrun. run_monad.
    rewrite Hc. discriminate.
Qed.

Lemma broadcast_added_event (s s' : State) (job : JobUpdate) (j : Job) :
  broadcast_added s s' job →
  jobs s' !! ju_id job = Some j →
  j_client_id j = ju_client_id job →
  j_status j = ju_status job →
  ∃ msg,
    jobs s' !! ju_id job = Some j
    ∧ m_type msg = "job_update"
    ∧ m_job_id msg = str_uuid (ju_id job)
    ∧ m_status msg = j_status j
    ∧ m_timestamp msg = clock s
    ∧ emitted s' = (emitted s ++ [(str_uuid (j_client_id j), msg)])%list
    ∧ sent s' =
        (sent s ++ map (fun ws => (ws, msg))
                       (listeners s (str_uuid (j_client_id j))
                        ++ listeners s "global"))%list.
Proof.
  intros [Hem Hsent] Hj Hc Hst.
  exists (job_update_message job (clock s)).
  rewrite Hc, Hst. repeat split; assumption.
Qed.

(** Against C4 as stated: an update that names no field succeeds without
    an event, and a broadcast to a client that has a listener list leaves the global
    listeners appended to that list: after the cancel of job 1 the list of
    client 7 is [1; 2] instead of [1], and the event of the following retry
    is sent to the global listener 2 twice. *)
Lemma broadcast_extends_registry_entry :
  run (Update 1 (mkUpdate None None None None None)) running_state
    = (inr (JobResponse (sample_job 1 RUNNING 0)), running_state)
  ∧ listeners running_state (str_uuid 7) = [1%nat]
  ∧ listeners running_state "global" = [2%nat]
  ∧ (run (Cancel 1) running_state).1
    = inr (CancelledResponse (str_uuid 1))
  ∧ listeners (run (Cancel 1) running_state).2 (str_uuid 7)
    = [1%nat; 2%nat]
  ∧ (run (Retry 1) (run (Cancel 1) running_state).2).1
    = inr (RequeuedResponse (str_uuid 1) 1)
  ∧ map fst (sent (run (Retry 1) (run (Cancel 1) running_state).2).2)
    = [1%nat; 2%nat; 1%nat; 2%nat; 2%nat].
Proof. vm_compute. repeat split. Qed.

(** C4, amended. A successful create, cancel or retry, and a successful
    update that names at least one field, emits exactly one event: a
    job_update message with the job's id, its stored status and the time of
    the call, addressed to the job's client id and sent once for every entry
    of the listener list of that client id followed by every entry of the
    global list, as they stood before the call. A successful update that
    names no field emits nothing and changes nothing. *)
Theorem mutation_emits_one_event (op : Operation) (s s' : State)
    (r : Response) :
  run op s = (inr r, s') →
  if is_empty_update op then s' = s
  else
    ∃ j msg,
      jobs s' !! op_job_id op = Some j
      ∧ m_type msg = "job_update"
      ∧ m_job_id msg = str_uuid (op_job_id op)
      ∧ m_status msg = j_status j
      ∧ m_timestamp msg = clock s
      ∧ emitted s' = (emitted s ++ [(str_uuid (j_client_id j), msg)])%list
      ∧ sent s' =
          (sent s ++ map (fun ws => (ws, msg))
                         (listeners s (str_uuid (j_client_id j))
                          ++ listeners s "global"))%list.
Proof.
  destruct op as [request job_id|job_id request|job_id|job_id]; simpl.
  - (* create *)
    run_monad.
    destruct (create_job request job_id s) as [[e|row] s1] eqn:Hrun;
      [discriminate|].
    intros [= <- <-].
    destruct (create_job_success_inv _ _ _ _ _ Hrun) as [Hc Hdeps].
    destruct (create_job_hit s request job_id Hc Hdeps)
      as (s2 & Hrun2 & Hjobs & _ & Hadd).
    rewrite Hrun in Hrun2. injection Hrun2 as -> ->.
    eexists.
    eapply (broadcast_added_event _ _ _ _ Hadd); simpl;
      [rewrite Hjobs; apply lookup_insert_eq|reflexivity|reflexivity].
  - (* update *)
    run_monad.
    destruct (update_job job_id request s) as [[e|row] s1] eqn:Hrun;
      [discriminate|].
    intros [= <- <-].
    destruct (jobs s !! job_id) as [j|] eqn:Hj.
    + destruct (no_updates request) eqn:Hn.
      * rewrite (update_job_empty s job_id request j Hj Hn) in Hrun.
        congruence.
      * destruct (update_job_hit s job_id request j Hj Hn)
          as (s2 & Hrun2 & Hjobs & _ & Hadd).
        rewrite Hrun in Hrun2. injection Hrun2 as -> ->.
        eexists.
        eapply (broadcast_added_event _ _ _ _ Hadd); simpl;
          [rewrite Hjobs; apply lookup_insert_eq|reflexivity|reflexivity].
    + rewrite (update_job_missing s job_id request Hj) in Hrun.
      discriminate.
  - (* cancel *)
    intros Hrun.
    destruct (jobs s !! job_id) as [j|] eqn:Hj.
    + destruct (cancellable (j_status j)) eqn:Hc.
      * destruct (cancel_job_hit s job_id j Hj Hc)
          as (s2 & Hrun2 & Hjobs & _ & Hadd).
        rewrite Hrun in Hrun2. injection Hrun2 as -> ->.
        eexists.
        eapply (broadcast_added_event _ _ _ _ Hadd); simpl;
          [rewrite Hjobs; apply lookup_insert_eq|reflexivity|reflexivity].
      * rewrite cancel_job_miss in Hrun; [discriminate|].
        intros j0 Hj0. congruence.
    + rewrite cancel_job_miss in Hrun; [discriminate|].
      intros j0 Hj0. congruence.
  - (* retry *)
    intros Hrun.
    destruct (jobs s !! job_id) as [j|] eqn:Hj.
    + destruct (retryable (j_status j)) eqn:Hc.
      * destruct (retry_job_hit s job_id j Hj Hc)
          as (s2 & Hrun2 & Hjobs & _ & Hadd).
        rewrite Hrun in Hrun2. injection Hrun2 as -> ->.
        eexists.
        eapply (broadcast_added_event _ _ _ _ Hadd); simpl;
          [rewrite Hjobs; apply lookup_insert_eq|reflexivity|reflexivity].
      * rewrite retry_job_miss in Hrun; [discriminate|].
        intros j0 Hj0. congruence.
    + rewrite retry_job_miss in Hrun; [discriminate|].
      intros j0 Hj0. congruence.
Qed.

Lemma mutation_emits_one_event_witness :
  ∃ j msg,
    jobs (run (Cancel 1) running_state).2 !! 1%N = Some j
    ∧ m_type msg = "job_update"
    ∧ m_job_id msg = str_uuid 1
    ∧ m_status msg = j_status j
    ∧ m_timestamp msg = 1000
    ∧ emitted (run (Cancel 1) running_state).2
      = [(str_uuid (j_client_id j), msg)]
    ∧ sent (run (Cancel 1) running_state).2
      = map (fun ws => (ws, msg))
            (listeners running_state (str_uuid (j_client_id j))
             ++ listeners running_state "global")%list.
Proof.
  exact (mutation_emits_one_event (Cancel 1) running_state
           (run (Cancel 1) running_state).2
           (CancelledResponse (str_uuid 1)) eq_refl).
Defined.

(** ** Routing *)

Lemma resolve_never_stats (method : Method) (path : list string)
    (params : list (string * string)) :
  resolve routes method path false ≠ Resolved ep_get_job_stats params.
Proof.
  intros H. unfold routes in H. simpl in H. unfold matches in H. simpl in H.
  destruct path as [|a [|b [|c [|d [|e rest]]]]]; simpl in H;
    repeat (first [ discriminate H
                  | case_decide; simpl in H; subst
                  | case_match; simpl in H; subst ]).
Qed.

(** C9. The route of [get_job] is registered before that of
    [get_job_stats] and its [{job_id}] parameter fits the segment "stats":
    GET /automation/jobs/stats resolves to [get_job] with job_id "stats",
    which is no UUID, so the request ends in the validation error 422; and
    no request, whatever its method and path, resolves to
    [get_job_stats]. *)
Theorem stats_route_is_shadowed :
  resolve routes GET ["automation"; "jobs"; "stats"] false
    = Resolved ep_get_job [("job_id", "stats")]
  ∧ parse_uuid "stats" = None
  ∧ handle_request GET ["automation"; "jobs"; "stats"] = ValidationError 422
  ∧ (∀ method path params,
       resolve routes method path false ≠ Resolved ep_get_job_stats params)
  ∧ (∀ method path arg,
       handle_request method path ≠ Invoke ep_get_job_stats arg).
Proof.
  split; [reflexivity|]. split; [reflexivity|]. split; [reflexivity|].
  split; [apply resolve_never_stats|].
  intros method path arg. unfold handle_request.
  destruct (resolve routes method path false) as [ep params| |] eqn:Hres;
    [|discriminate..].
  destruct (decide (ep = ep_get_job_stats)) as [->|Hne].
  - exfalso. exact (resolve_never_stats _ _ _ Hres).
  - repeat case_match; congruence.
Qed.

(** ** Scheduling *)

Lemma replace_minute_second_next_hour (t : Z) :
  replace_minute_second (t + timedelta_hours 1)
  = replace_minute_second t + hour.
Proof.
  unfold replace_minute_second, timedelta_hours.
  rewrite Z.div_add by (unfold hour, second; lia).
  replace (t + 1 * hour) with (t + 3600 * second)
    by (unfold hour; lia).
  rewrite Z_mod_plus_full. lia.
Qed.

Lemma replace_minute_second_whole (t : Z) :
  t mod second = 0 → replace_minute_second t = date_trunc_hour t.
Proof.
  intros H. unfold replace_minute_second, date_trunc_hour. rewrite H. lia.
Qed.

Lemma busy_ahead_self (busy_hours : gset Z) (t : Z) :
  replace_minute_second t ∈ busy_hours →
  replace_minute_second t ∈ busy_ahead busy_hours t.
Proof. intros Hin. apply elem_of_filter. split; [lia|done]. Qed.

Lemma busy_ahead_shrinks (busy_hours : gset Z) (t : Z) :
  replace_minute_second t ∈ busy_hours →
  (size (busy_ahead busy_hours (t + timedelta_hours 1))
   < size (busy_ahead busy_hours t))%nat.
Proof.
  intros Hin. apply subset_size. split.
  - intros b. unfold busy_ahead.
    rewrite !elem_of_filter, replace_minute_second_next_hour.
    unfold hour, second. intros [? ?]. split; [lia|done].
  - intros Hsub.
    pose proof (Hsub _ (busy_ahead_self _ _ Hin)) as Hmem.
    apply elem_of_filter in Hmem as [Hle _].
    rewrite replace_minute_second_next_hour in Hle.
    unfold hour, second in Hle. lia.
Qed.

Lemma avoid_busy_steps (fuel : nat) (busy_hours : gset Z) (t : Z) :
  (size (busy_ahead busy_hours t) <= fuel)%nat →
  ∃ k : nat,
    avoid_busy fuel busy_hours t = t + Z.of_nat k * hour
    ∧ (replace_minute_second (t + Z.of_nat k * hour) ∉ busy_hours)
    ∧ (∀ i : nat, (i < k)%nat →
         replace_minute_second (t + Z.of_nat i * hour) ∈ busy_hours).
Proof.
  revert t. induction fuel as [|fuel IH]; intros t Hsize.
  - exists 0%nat. simpl. rewrite Z.add_0_r.
    split; [reflexivity|]. split; [|intros i Hi; lia].
    intros Hin. apply busy_ahead_self in Hin.
    assert (Hz : size (busy_ahead busy_hours t) = 0%nat) by lia.
    apply size_empty_iff in Hz. rewrite Hz in Hin.
    exact (not_elem_of_empty _ Hin).
  - simpl. destruct (decide (replace_minute_second t ∈ busy_hours))
      as [Hin|Hout].
    + destruct (IH (t + timedelta_hours 1)) as (k & Hrun & Hfree & Hbusy).
      { pose proof (busy_ahead_shrinks busy_hours t Hin). lia. }
      exists (S k).
      assert (Hshift : ∀ n : nat,
                t + timedelta_hours 1 + Z.of_nat n * hour
                = t + Z.of_nat (S n) * hour).
      { intros n. unfold timedelta_hours. lia. }
      rewrite <- Hshift. split; [exact Hrun|]. split; [exact Hfree|].
      intros [|i] Hi.
      * simpl. rewrite Z.add_0_r. exact Hin.
      * rewrite <- Hshift. apply Hbusy. lia.
    + exists 0%nat. simpl. rewrite Z.add_0_r.
      split; [reflexivity|]. split; [exact Hout|intros i Hi; lia].
Qed.

(** The bound on the iterations used by [recommended_time] is enough. *)
Lemma avoid_busy_not_busy (busy_hours : gset Z) (t : Z) :
  ∃ k : nat,
    avoid_busy (size busy_hours) busy_hours t = t + Z.of_nat k * hour
    ∧ (replace_minute_second (t + Z.of_nat k * hour) ∉ busy_hours)
    ∧ (∀ i : nat, (i < k)%nat →
         replace_minute_second (t + Z.of_nat i * hour) ∈ busy_hours).
Proof.
  apply avoid_busy_steps. apply subseteq_size.
  intros b Hb. apply elem_of_filter in Hb as [_ Hb]. exact Hb.
Qed.

(** Against C8 as stated: the last completed health check ended at time 0
    and it is now 10 h; the interval of 6 h puts the next run at 6 h, which
    is past, and the code takes now + 30 min instead. *)
Lemma candidate_of_overdue_job :
  interval_of "health_check" = timedelta_hours 6
  ∧ candidate (Some 0) (interval_of "health_check") (timedelta_hours 10)
    ≠ 0 + interval_of "health_check"
  ∧ recommended_time {[ "health_check" := 0 ]} ∅ "health_check"
      (timedelta_hours 10)
    = timedelta_hours 10 + timedelta_minutes 30.
Proof. vm_compute. repeat split. discriminate. Qed.

(** [replace(minute=0, second=0)] keeps the microseconds, so a time that is
    not on a whole second is never found in [busy_hours], whose elements are
    whole hours: at now = 1 microsecond the candidate 1 h + 1 microsecond is
    returned although its hour is busy. *)
Lemma busy_hour_with_microseconds_kept :
  date_trunc_hour (timedelta_hours 1 + 1) ∈ ({[ timedelta_hours 1 ]} : gset Z)
  ∧ recommended_time ∅ {[ timedelta_hours 1 ]} "menu_sync" 1
    = timedelta_hours 1 + 1.
Proof.
  split; [apply elem_of_singleton; reflexivity|].
  unfold recommended_time. rewrite size_singleton. simpl.
  rewrite decide_False; [reflexivity|].
  rewrite elem_of_singleton. vm_compute. discriminate.
Qed.

(** C8, amended. The interval is 6 h for health_check, 24 h for menu_sync
    and golden_copy, 12 h for backup and 24 h for any other job type. The
    candidate is the last completed run plus the interval when that is not
    before now, now + 30 min when it is before now, and now + 1 h when there
    is no completed run. For a candidate on a whole second the recommended
    time is the candidate moved forward by the least number of hours that
    takes it out of the busy hours. *)
Theorem recommended_time_walks_from_candidate
    (last_job_times : gmap string Z) (busy_hours : gset Z) (jt : string)
    (now : Z) :
  (interval_of "health_check" = timedelta_hours 6
   ∧ interval_of "menu_sync" = timedelta_hours 24
   ∧ interval_of "golden_copy" = timedelta_hours 24
   ∧ interval_of "backup" = timedelta_hours 12
   ∧ (jt ∉ ["health_check"; "menu_sync"; "golden_copy"; "backup"] →
      interval_of jt = timedelta_hours 24))
  ∧ (∀ last_run, last_job_times !! jt = Some last_run →
       now <= last_run + interval_of jt →
       candidate (last_job_times !! jt) (interval_of jt) now
       = last_run + interval_of jt)
  ∧ (∀ last_run, last_job_times !! jt = Some last_run →
       last_run + interval_of jt < now →
       candidate (last_job_times !! jt) (interval_of jt) now
       = now + timedelta_minutes 30)
  ∧ (last_job_times !! jt = None →
       candidate (last_job_times !! jt) (interval_of jt) now
       = now + timedelta_hours 1)
  ∧ (candidate (last_job_times !! jt) (interval_of jt) now mod second = 0 →
     ∃ k : nat,
       recommended_time last_job_times busy_hours jt now
       = candidate (last_job_times !! jt) (interval_of jt) now
         + timedelta_hours (Z.of_nat k)
       ∧ (date_trunc_hour (recommended_time last_job_times busy_hours jt now)
          ∉ busy_hours)
       ∧ (∀ i : nat, (i < k)%nat →
            date_trunc_hour
              (candidate (last_job_times !! jt) (interval_of jt) now
               + timedelta_hours (Z.of_nat i)) ∈ busy_hours)).
Proof.
  split.
  { repeat (split; [reflexivity|]).
    rewrite !elem_of_cons, elem_of_nil. intros Hjt.
    unfold interval_of, intervals.
    repeat (case_decide; [exfalso; apply Hjt; tauto|]). reflexivity. }
  split.
  { intros last_run -> Hle. unfold candidate.
    rewrite decide_False by lia. reflexivity. }
  split.
  { intros last_run -> Hlt. unfold candidate.
    rewrite decide_True by lia. reflexivity. }
  split.
  { intros ->. reflexivity. }
  intros Hwhole. unfold recommended_time.
  set (c := candidate (last_job_times !! jt) (interval_of jt) now) in *.
  destruct (avoid_busy_not_busy busy_hours c) as (k & Hrun & Hfree & Hbusy).
  assert (Hmod : ∀ n : nat, (c + Z.of_nat n * hour) mod second = 0).
  { intros n. replace (c + Z.of_nat n * hour)
      with (c + (Z.of_nat n * 3600) * second) by (unfold hour; lia).
    rewrite Z_mod_plus_full. exact Hwhole. }
  exists k. unfold timedelta_hours. rewrite Hrun.
  split; [reflexivity|]. split.
  - rewrite <- replace_minute_second_whole by apply Hmod. exact Hfree.
  - intros i Hi.
    rewrite <- replace_minute_second_whole by apply Hmod. exact (Hbusy i Hi).
Qed.

Lemma recommended_time_walks_from_candidate_witness :
  ∃ k : nat,
    recommended_time ∅ {[ timedelta_hours 1 ]} "menu_sync" 0
    = candidate None (interval_of "menu_sync") 0
      + timedelta_hours (Z.of_nat k)
    ∧ (date_trunc_hour
         (recommended_time ∅ {[ timedelta_hours 1 ]} "menu_sync" 0)
       ∉ ({[ timedelta_hours 1 ]} : gset Z))
    ∧ (∀ i : nat, (i < k)%nat →
         date_trunc_hour
           (candidate None (interval_of "menu_sync") 0
            + timedelta_hours (Z.of_nat i))
         ∈ ({[ timedelta_hours 1 ]} : gset Z)).
Proof.
  destruct (recommended_time_walks_from_candidate
              ∅ {[ timedelta_hours 1 ]} "menu_sync" 0)
    as (_ & _ & _ & _ & Hwalk).
  exact (Hwalk eq_refl).
Defined.

(** * Further properties of the routers *)

(** ** The connection registry *)

Lemma list_remove_app_fresh (x : nat) (l : list nat) :
  x ∉ l → list_remove x (l ++ [x]) = Some l.
Proof.
  induction l as [|y l IH]; intros Hnotin; simpl.
  - rewrite decide_True by reflexivity. reflexivity.
  - apply not_elem_of_cons in Hnotin as [Hne Hnotin].
    rewrite decide_False by exact Hne. rewrite (IH Hnotin). reflexivity.
Qed.

Lemma list_remove_None (x : nat) (l : list nat) :
  list_remove x l = None ↔ x ∉ l.
Proof.
  induction l as [|y l IH]; simpl.
  - split; [intros _; apply not_elem_of_nil|reflexivity].
  - destruct (decide (x = y)) as [->|Hne].
    + split; [discriminate|]. intros Hn. exfalso. apply Hn. left.
    + rewrite not_elem_of_cons.
      destruct (list_remove x l) as [r|].
      * split; [discriminate|]. intros [_ Hn]. apply IH in Hn. discriminate.
      * split; [|reflexivity]. intros _. split; [exact Hne|by apply IH].
Qed.

Lemma list_remove_Some_length (x : nat) (l r : list nat) :
  list_remove x l = Some r → length l = S (length r).
Proof.
  revert r. induction l as [|y l IH]; intros r; simpl; [discriminate|].
  destruct (decide (x = y)) as [->|Hne].
  - intros [= ->]. reflexivity.
  - destruct (list_remove x l) as [r'|]; [|discriminate].
    intros [= <-]. simpl. rewrite (IH r' eq_refl). reflexivity.
Qed.

Lemma State_eta (s : State) :
  mkState (clock s) (clients s) (jobs s) (queues s) (active_connections s)
          (emitted s) (sent s) = s.
Proof. destruct s. reflexivity. Qed.

(** X1. A websocket that connects under a key and then disconnects from it
    leaves the whole state as it was, provided the list of the key, if any,
    is not empty and does not hold the websocket already. *)
Theorem connect_disconnect_round_trip (s : State) (websocket : nat)
    (client_id : string) :
  (∀ l, active_connections s !! client_id = Some l →
        l ≠ [] ∧ websocket ∉ l) →
  disconnect websocket client_id (connect websocket client_id s).2
  = (inr tt, s).
Proof.
  intros Hl. unfold connect. simpl.
  destruct (active_connections s !! client_id) as [l|] eqn:Hreg;
    unfold disconnect; simpl.
  - destruct (Hl l eq_refl) as [Hne Hfresh].
    rewrite lookup_insert_eq, (list_remove_app_fresh _ _ Hfresh).
    destruct l as [|y l']; [done|].
    unfold set_connections. simpl.
    rewrite insert_insert_eq, (insert_id _ _ _ Hreg), State_eta.
    reflexivity.
  - rewrite lookup_insert_eq. simpl.
    rewrite decide_True by reflexivity.
    unfold set_connections. simpl.
    rewrite delete_insert_eq, (delete_id _ _ Hreg), State_eta.
    reflexivity.
Qed.

Lemma connect_disconnect_round_trip_witness :
  disconnect 3 "global" (connect 3 "global" running_state).2
  = (inr tt, running_state).
Proof.
  apply (connect_disconnect_round_trip running_state 3 "global").
  intros l Hl. vm_compute in Hl. injection Hl as <-.
  split; [discriminate|].
  intros Hin. apply list_elem_of_In in Hin. simpl in Hin.
  destruct Hin as [Hin|[]]. discriminate Hin.
Defined.

(** X2. [disconnect] of a websocket that is not in the list of a registered
    key raises ValueError and changes nothing, whereas for a key that is not
    registered it returns normally and changes nothing. *)
Theorem disconnect_unregistered (s : State) (websocket : nat)
    (client_id : string) :
  (active_connections s !! client_id = None →
     disconnect websocket client_id s = (inr tt, s))
  ∧ (∀ l, active_connections s !! client_id = Some l → websocket ∉ l →
       disconnect websocket client_id s
       = (inl (ValueError "list.remove(x): x not in list"), s)).
Proof.
  split.
  - intros Hreg. unfold disconnect. rewrite Hreg. reflexivity.
  - intros l Hreg Hnotin. unfold disconnect. rewrite Hreg.
    apply list_remove_None in Hnotin. rewrite Hnotin. reflexivity.
Qed.

Lemma disconnect_unregistered_witness :
  disconnect 5 "nobody" running_state = (inr tt, running_state)
  ∧ disconnect 5 "global" running_state
    = (inl (ValueError "list.remove(x): x not in list"), running_state).
Proof.
  destruct (disconnect_unregistered running_state 5 "nobody") as [Hnone _].
  destruct (disconnect_unregistered running_state 5 "global") as [_ Hsome].
  split; [apply Hnone; reflexivity|].
  apply (Hsome [2%nat]); [reflexivity|].
  intros Hin. apply list_elem_of_In in Hin. simpl in Hin.
  destruct Hin as [Hin|[]]. discriminate Hin.
Defined.

(** X3. The registry never holds an empty list: [connect], [disconnect] and
    [broadcast_to_client] keep that invariant. *)
Theorem registry_nonempty_preserved (s : State) (websocket : nat)
    (client_id : string) (message : Message) :
  registry_nonempty s →
  registry_nonempty (connect websocket client_id s).2
  ∧ registry_nonempty (disconnect websocket client_id s).2
  ∧ registry_nonempty (broadcast_to_client client_id message s).2.
Proof.
  intros Hinv. split; [|split].
  - unfold connect. simpl. intros k l.
    destruct (active_connections s !! client_id) as [l0|] eqn:Hreg; simpl;
      (destruct (decide (client_id = k)) as [->|Hne];
       [rewrite lookup_insert_eq|rewrite lookup_insert_ne by exact Hne]).
    + intros [= <-]. destruct l0; discriminate.
    + apply Hinv.
    + intros [= <-]. discriminate.
    + apply Hinv.
  - unfold disconnect.
    destruct (active_connections s !! client_id) as [l0|] eqn:Hreg;
      [|exact Hinv].
    destruct (list_remove websocket l0) as [[|y r]|] eqn:Hrm;
      unfold set_connections; simpl; [| |exact Hinv]; intros k l; simpl.
    + destruct (decide (client_id = k)) as [->|Hne];
        [rewrite lookup_delete_eq; discriminate|].
      rewrite lookup_delete_ne by exact Hne. apply Hinv.
    + destruct (decide (client_id = k)) as [->|Hne].
      * rewrite lookup_insert_eq. intros [= <-]. discriminate.
      * rewrite lookup_insert_ne by exact Hne. apply Hinv.
  - unfold broadcast_to_client.
    destruct (active_connections s !! client_id) as [l0|] eqn:Hreg; simpl;
      [|exact Hinv].
    intros k l; simpl. destruct (decide (client_id = k)) as [->|Hne].
    + rewrite lookup_insert_eq. intros [= <-].
      pose proof (Hinv _ _ Hreg). destruct l0; [done|discriminate].
    + rewrite lookup_insert_ne by exact Hne. apply Hinv.
Qed.

Lemma registry_nonempty_running_state : registry_nonempty running_state.
Proof.
  intros k l. unfold running_state, sample_state. simpl.
  intros Hl. apply lookup_insert_Some in Hl as [[_ <-]|[_ Hl]];
    [discriminate|].
  apply lookup_singleton_Some in Hl as [_ <-]. discriminate.
Defined.

Lemma registry_nonempty_preserved_witness :
  registry_nonempty (connect 3 "global" running_state).2
  ∧ registry_nonempty (disconnect 3 "global" running_state).2
  ∧ registry_nonempty
      (broadcast_to_client "global"
         (job_update_message (mkJobUpdate 1 7 QUEUED None None) 0)
         running_state).2.
Proof.
  apply (registry_nonempty_preserved running_state 3 "global").
  exact registry_nonempty_running_state.
Defined.

Lemma list_remove_NoDup (x : nat) (l r : list nat) :
  NoDup l → list_remove x l = Some r → x ∉ r.
Proof.
  revert r. induction l as [|y l IH]; intros r Hnd; simpl; [discriminate|].
  apply NoDup_cons in Hnd as [Hy Hnd].
  destruct (decide (x = y)) as [->|Hne].
  - intros [= <-]. exact Hy.
  - destruct (list_remove x l) as [r'|] eqn:Hrm; [|discriminate].
    intros [= <-]. apply not_elem_of_cons. split; [exact Hne|].
    by apply IH.
Qed.

Lemma list_remove_elem (x : nat) (l : list nat) :
  x ∈ l → ∃ r, list_remove x l = Some r.
Proof.
  intros Hin. destruct (list_remove x l) as [r|] eqn:Hrm; [eauto|].
  apply list_remove_None in Hrm. contradiction.
Qed.

Lemma broadcast_to_client_registry (client_id : string) (message : Message)
    (s : State) (l : list nat) :
  active_connections s !! client_id = Some l →
  active_connections (broadcast_to_client client_id message s).2
  = <[client_id := (l ++ listeners s "global")%list]> (active_connections s).
Proof.
  intros Hl. unfold broadcast_to_client, listeners. rewrite Hl. reflexivity.
Qed.

Lemma broadcast_to_client_sent (client_id : string) (message : Message)
    (s : State) :
  sent (broadcast_to_client client_id message s).2
  = (sent s ++ map (fun ws => (ws, message))
                   (listeners s client_id ++ listeners s "global"))%list.
Proof.
  destruct (broadcast_to_client_run client_id message s)
    as (s' & -> & _ & _ & _ & _ & _ & Hsent).
  exact Hsent.
Qed.

(** [disconnect] of a websocket that is in the list of its key. *)
Lemma disconnect_present (s : State) (websocket : nat) (client_id : string)
    (l r : list nat) :
  active_connections s !! client_id = Some l →
  list_remove websocket l = Some r →
  ∃ s', disconnect websocket client_id s = (inr tt, s')
    ∧ listeners s' client_id = r
    ∧ (∀ k, k ≠ client_id →
         active_connections s' !! k = active_connections s !! k)
    ∧ sent s' = sent s.
Proof.
  intros Hl Hrm. unfold disconnect. rewrite Hl, Hrm.
  destruct r as [|y r']; eexists; (split; [reflexivity|]);
    unfold listeners, set_connections; simpl.
  - rewrite lookup_delete_eq. repeat split.
    intros k Hk. by rewrite lookup_delete_ne.
  - rewrite lookup_insert_eq. repeat split.
    intros k Hk. by rewrite lookup_insert_ne.
Qed.

(** X4. A global listener that disconnects after a broadcast to a client
    with listeners of its own is gone from the global list but still in the
    list of that client, which the broadcast extended: the next event of
    the client is sent to it all the same. *)
Theorem disconnected_global_listener_still_served (s : State)
    (client_id : string) (l globals : list nat) (g : nat)
    (m1 m2 : Message) :
  client_id ≠ "global" →
  active_connections s !! client_id = Some l →
  active_connections s !! "global" = Some globals →
  NoDup globals → g ∈ globals →
  ∃ s2,
    disconnect g "global" (broadcast_to_client client_id m1 s).2
    = (inr tt, s2)
    ∧ (g ∉ listeners s2 "global")
    ∧ (g, m2) ∈ sent (broadcast_to_client client_id m2 s2).2.
Proof.
  intros Hne Hl Hg Hnd Hin.
  destruct (list_remove_elem g globals Hin) as [r Hrm].
  pose proof (list_remove_NoDup _ _ _ Hnd Hrm) as Hgone.
  pose proof (broadcast_to_client_registry client_id m1 s l Hl) as Hreg1.
  assert (Hglob : listeners s "global" = globals).
  { unfold listeners. rewrite Hg. reflexivity. }
  rewrite Hglob in Hreg1.
  destruct (disconnect_present (broadcast_to_client client_id m1 s).2
              g "global" globals r) as (s2 & Hrun & Hl2 & Hother & _).
  { rewrite Hreg1, lookup_insert_ne by exact Hne. exact Hg. }
  { exact Hrm. }
  exists s2. split; [exact Hrun|]. split; [rewrite Hl2; exact Hgone|].
  rewrite broadcast_to_client_sent. apply elem_of_app. right.
  apply (list_elem_of_fmap_2 (fun ws => (ws, m2))).
  apply elem_of_app. left. unfold listeners at 1.
  rewrite (Hother client_id Hne), Hreg1, lookup_insert_eq. simpl.
  apply elem_of_app. right. exact Hin.
Qed.

Lemma disconnected_global_listener_still_served_witness :
  ∃ s2,
    disconnect 2 "global"
      (broadcast_to_client (str_uuid 7)
         (job_update_message (mkJobUpdate 1 7 RUNNING None None) 0)
         running_state).2
    = (inr tt, s2)
    ∧ (2%nat ∉ listeners s2 "global")
    ∧ (2%nat, job_update_message (mkJobUpdate 1 7 FAILED None None) 5)
      ∈ sent (broadcast_to_client (str_uuid 7)
                (job_update_message (mkJobUpdate 1 7 FAILED None None) 5)
                s2).2.
Proof.
  apply (disconnected_global_listener_still_served running_state
           (str_uuid 7) [1%nat] [2%nat] 2).
  - vm_compute. discriminate.
  - reflexivity.
  - reflexivity.
  - apply NoDup_singleton.
  - left.
Defined.

(** ** How the job endpoints compose *)

Lemma get_job_found (s : State) (job_id : N) (j : Job) :
  jobs s !! job_id = Some j → get_job job_id s = (inr j, s).
Proof. intros Hj. unfold get_job. run_monad. rewrite Hj. reflexivity. Qed.



(** X6. Only [create_job] and [retry_job] write to the Redis queues:
    whatever the request and its outcome, [update_job] and [cancel_job]
    leave every queue as it was, so a queued job that is cancelled, or
    whose priority or status is updated, stays in the queue it was pushed
    on. *)
Theorem update_and_cancel_leave_queues (s : State) (job_id : N)
    (request : UpdateJobRequest) :
  queues (update_job job_id request s).2 = queues s
  ∧ queues (cancel_job job_id s).2 = queues s.
Proof.
  split.
  - destruct (jobs s !! job_id) as [j|] eqn:Hj.
    + destruct (no_updates request) eqn:Hn.
      * rewrite (update_job_empty s job_id request j Hj Hn). reflexivity.
      * destruct (update_job_hit s job_id request j Hj Hn)
          as (s2 & -> & _ & Hq & _). exact Hq.
    + rewrite (update_job_missing s job_id request Hj). reflexivity.
  - destruct (jobs s !! job_id) as [j|] eqn:Hj.
    + destruct (cancellable (j_status j)) eqn:Hc.
      * destruct (cancel_job_hit s job_id j Hj Hc)
          as (s2 & -> & _ & Hq & _). exact Hq.
      * rewrite cancel_job_miss; [reflexivity|].
        intros j0 Hj0. congruence.
    + rewrite cancel_job_miss; [reflexivity|].
      intros j0 Hj0. congruence.
Qed.

(** X7. A successful [create_job] stores the job as QUEUED or as PENDING;
    it pushes the job id at the head of the queue of the requested priority
    in the first case and leaves the queues alone in the second. *)
Theorem create_job_queues_iff_queued (s s' : State)
    (request : CreateJobRequest) (job_id : N) (row : Job) :
  create_job request job_id s = (inr row, s') →
  (j_status row = QUEUED
   ∧ queues s' =
       <[priority_value (c_priority request) :=
           job_id :: default []
             (queues s !! priority_value (c_priority request))]> (queues s))
  ∨ (j_status row = PENDING ∧ queues s' = queues s).
Proof.
  intros Hrun.
  destruct (create_job_success_inv _ _ _ _ _ Hrun) as [Hc Hdeps].
  destruct (create_job_hit s request job_id Hc Hdeps)
    as (s2 & Hrun2 & _ & Hq & _).
  rewrite Hrun in Hrun2. injection Hrun2 as -> ->.
  revert Hq. simpl.
  destruct (decide (_ = QUEUED)) as [Hst|Hst]; intros Hq.
  - left. split; assumption.
  - right. split; [|exact Hq].
    revert Hst. unfold initial_status_of.
    repeat case_match; congruence.
Qed.

Lemma create_job_queues_iff_queued_witness :
  (j_status (inserted_row independent_request 2 PENDING 5000 1000) = QUEUED
   ∧ queues (create_job independent_request 2 completed_state).2 =
       <[priority_value (c_priority independent_request) :=
           2%N :: default []
             (queues completed_state
                !! priority_value (c_priority independent_request))]>
         (queues completed_state))
  ∨ (j_status (inserted_row independent_request 2 PENDING 5000 1000)
     = PENDING
     ∧ queues (create_job independent_request 2 completed_state).2
       = queues completed_state).
Proof.
  apply (create_job_queues_iff_queued completed_state
           (create_job independent_request 2 completed_state).2
           independent_request 2).
  reflexivity.
Defined.

(** X8. Cancel and retry in a row: on a stored job that can be cancelled
    both calls succeed; the job ends QUEUED with one retry more and no
    completion time, and its id is pushed on the queue of its priority on
    top of whatever the queue held, an earlier occurrence of the id
    included. *)
Theorem cancel_then_retry (s : State) (job_id : N) (j : Job) :
  jobs s !! job_id = Some j →
  j_status j ∈ [PENDING; QUEUED; RUNNING; PAUSED] →
  ∃ s1 s2 j',
    cancel_job job_id s = (inr (CancelledResponse (str_uuid job_id)), s1)
    ∧ retry_job job_id s1 =
        (inr (RequeuedResponse (str_uuid job_id) (j_retry_count j + 1)), s2)
    ∧ jobs s2 !! job_id = Some j'
    ∧ j_status j' = QUEUED
    ∧ j_retry_count j' = j_retry_count j + 1
    ∧ j_completed_at j' = None
    ∧ queues s2 !! priority_value (j_priority j)
      = Some (job_id :: default []
                (queues s !! priority_value (j_priority j))).
Proof.
  intros Hj Hst. apply cancellable_iff in Hst.
  destruct (cancel_job_hit s job_id j Hj Hst)
    as (s1 & Hrun1 & Hjobs1 & Hq1 & _).
  assert (Hj1 : jobs s1 !! job_id = Some (cancelled_row (clock s) j)).
  { rewrite Hjobs1. apply lookup_insert_eq. }
  destruct (retry_job_hit s1 job_id _ Hj1 eq_refl)
    as (s2 & Hrun2 & Hjobs2 & Hq2 & _).
  exists s1, s2, (requeued_row (clock s1) (cancelled_row (clock s) j)).
  split; [exact Hrun1|]. split; [exact Hrun2|].
  split; [rewrite Hjobs2; apply lookup_insert_eq|].
  repeat (split; [reflexivity|]).
  rewrite Hq2, Hq1. simpl. apply lookup_insert_eq.
Qed.

Lemma cancel_then_retry_witness :
  ∃ s1 s2 j',
    cancel_job 1 running_state = (inr (CancelledResponse (str_uuid 1)), s1)
    ∧ retry_job 1 s1 = (inr (RequeuedResponse (str_uuid 1) 1), s2)
    ∧ jobs s2 !! 1%N = Some j'
    ∧ j_status j' = QUEUED
    ∧ j_retry_count j' = 1
    ∧ j_completed_at j' = None
    ∧ queues s2 !! 2 = Some [1%N].
Proof.
  apply (cancel_then_retry running_state 1 (sample_job 1 RUNNING 0));
    [reflexivity|].
  apply list_elem_of_In. simpl. tauto.
Defined.

(** X9. The event of a successful cancel or retry carries progress 0 and no
    progress message, whatever progress the stored job has; the event of an
    update carries the stored progress. *)
Theorem event_progress (s : State) (job_id : N) (j : Job) :
  jobs s !! job_id = Some j →
  (cancellable (j_status j) = true →
     ∃ key msg,
       last (emitted (cancel_job job_id s).2) = Some (key, msg)
       ∧ m_progress msg = 0 ∧ m_progress_message msg = None)
  ∧ (retryable (j_status j) = true →
     ∃ key msg,
       last (emitted (retry_job job_id s).2) = Some (key, msg)
       ∧ m_progress msg = 0 ∧ m_progress_message msg = None)
  ∧ (∀ request, no_updates request = false →
     ∃ key msg,
       last (emitted (update_job job_id request s).2) = Some (key, msg)
       ∧ m_progress msg = j_progress j ∧ m_progress_message msg = None).
Proof.
  intros Hj. split; [|split].
  - intros Hc.
    destruct (cancel_job_hit s job_id j Hj Hc)
      as (s' & -> & _ & _ & Hem & _).
    simpl. rewrite Hem, last_snoc. eauto.
  - intros Hc.
    destruct (retry_job_hit s job_id j Hj Hc)
      as (s' & -> & _ & _ & Hem & _).
    simpl. rewrite Hem, last_snoc. eauto.
  - intros request Hn.
    destruct (update_job_hit s job_id request j Hj Hn)
      as (s' & -> & _ & _ & Hem & _).
    simpl. rewrite Hem, last_snoc. eauto.
Qed.

Lemma event_progress_witness :
  j_progress (sample_job 1 RUNNING 0) = 40
  ∧ ∃ key msg,
      last (emitted (cancel_job 1 running_state).2) = Some (key, msg)
      ∧ m_progress msg = 0 ∧ m_progress_message msg = None.
Proof.
  split; [reflexivity|].
  destruct (event_progress running_state 1 (sample_job 1 RUNNING 0) eq_refl)
    as [Hcancel _].
  exact (Hcancel eq_refl).
Defined.

(** ** Job ids in request paths *)

Lemma string_app_assoc (a b c : string) : (a ++ b) ++ c = a ++ (b ++ c).
Proof.
  induction a as [|x a IH]; [reflexivity|].
  change (String x ((a ++ b) ++ c) = String x (a ++ (b ++ c))).
  f_equal. exact IH.
Qed.

Lemma string_app_nil_r (a : string) : a ++ "" = a.
Proof.
  induction a as [|x a IH]; [reflexivity|].
  change (String x (a ++ "") = String x a). f_equal. exact IH.
Qed.

Lemma string_length_app (a b : string) :
  String.length (a ++ b) = (String.length a + String.length b)%nat.
Proof.
  induction a as [|x a IH]; [reflexivity|].
  change (S (String.length (a ++ b))
          = S (String.length a + String.length b)).
  f_equal. exact IH.
Qed.

Lemma hex_of_length (d : nat) (n : N) : String.length (hex_of d n) = d.
Proof.
  revert n. induction d as [|d IH]; intros n; simpl; [reflexivity|].
  rewrite string_length_app, IH. simpl. lia.
Qed.

Lemma hex_value_digit (k : N) : (k < 16)%N → hex_value (hex_digit k) = Some k.
Proof.
  intros Hk. rewrite <- (N2Nat.id k).
  assert (Hn : (N.to_nat k < 16)%nat) by lia.
  revert Hn. generalize (N.to_nat k). intros n Hn.
  do 16 (destruct n as [|n]; [reflexivity|]). lia.
Qed.

Lemma hex_digit_not_hyphen (k : N) : hex_digit k ≠ "-"%char.
Proof.
  destruct (decide (k < 16)%N) as [Hk|Hk].
  - intros Heq. pose proof (hex_value_digit k Hk) as Hv.
    rewrite Heq in Hv. discriminate Hv.
  - unfold hex_digit.
    destruct k as [|p]; [lia|].
    do 4 (destruct p as [p|p|]; try discriminate).
Qed.

Lemma remove_hyphens_app (a b : string) :
  remove_hyphens (a ++ b) = remove_hyphens a ++ remove_hyphens b.
Proof.
  induction a as [|x a IH]; simpl; [reflexivity|].
  destruct (decide (x = "-"%char)); simpl; by rewrite IH.
Qed.

Lemma remove_hyphens_hex (d : nat) (n : N) :
  remove_hyphens (hex_of d n) = hex_of d n.
Proof.
  revert n. induction d as [|d IH]; intros n; simpl; [reflexivity|].
  rewrite remove_hyphens_app, IH. simpl.
  rewrite decide_False by apply hex_digit_not_hyphen. reflexivity.
Qed.

Lemma hex_of_app (a b : nat) (n : N) :
  hex_of (a + b) n = hex_of a (n / 16 ^ N.of_nat b)%N ++ hex_of b n.
Proof.
  revert n. induction b as [|b IH]; intros n.
  - rewrite Nat.add_0_r. simpl. rewrite N.div_1_r.
    symmetry. apply string_app_nil_r.
  - rewrite Nat.add_succ_r. simpl hex_of. rewrite IH, string_app_assoc.
    rewrite N.Div0.div_div.
    replace (16 * 16 ^ N.of_nat b)%N with (16 ^ N.of_nat (S b))%N
      by (rewrite Nat2N.inj_succ, N.pow_succ_r'; reflexivity).
    reflexivity.
Qed.

Lemma parse_hex_app (a b : string) (acc : N) :
  parse_hex (a ++ b) acc =
  match parse_hex a acc with
  | Some acc' => parse_hex b acc'
  | None => None
  end.
Proof.
  revert acc. induction a as [|x a IH]; intros acc; simpl; [reflexivity|].
  destruct (hex_value x); [apply IH|reflexivity].
Qed.

Lemma parse_hex_of (d : nat) (n acc : N) :
  parse_hex (hex_of d n) acc
  = Some (acc * 16 ^ N.of_nat d + n mod 16 ^ N.of_nat d)%N.
Proof.
  revert n acc. induction d as [|d IH]; intros n acc.
  - simpl. rewrite N.mod_1_r. f_equal. lia.
  - simpl hex_of. rewrite parse_hex_app, IH. simpl.
    rewrite hex_value_digit by (apply N.mod_lt; lia).
    f_equal. rewrite Nat2N.inj_succ, N.pow_succ_r'.
    rewrite (N.Div0.mod_mul_r n 16 (16 ^ N.of_nat d)). lia.
Qed.

Lemma hex_of_split (a b : nat) (n p : N) :
  p = (16 ^ N.of_nat b)%N →
  hex_of (a + b) n = hex_of a (n / p)%N ++ hex_of b n.
Proof. intros ->. apply hex_of_app. Qed.

Lemma remove_hyphens_dash (s : string) :
  remove_hyphens ("-" ++ s) = remove_hyphens s.
Proof. reflexivity. Qed.

Lemma remove_hyphens_str_uuid (u : N) :
  remove_hyphens (str_uuid u) = hex_of 32 u.
Proof.
  unfold str_uuid.
  rewrite remove_hyphens_app, remove_hyphens_hex, remove_hyphens_dash.
  rewrite remove_hyphens_app, remove_hyphens_hex, remove_hyphens_dash.
  rewrite remove_hyphens_app, remove_hyphens_hex, remove_hyphens_dash.
  rewrite remove_hyphens_app, remove_hyphens_hex, remove_hyphens_dash.
  rewrite remove_hyphens_hex, !N.shiftr_div_pow2.
  symmetry.
  change (hex_of 32 u) with (hex_of (8 + 24) u).
  rewrite (hex_of_split 8 24 u (2 ^ 96)) by (vm_compute; reflexivity).
  change (hex_of 24 u) with (hex_of (4 + 20) u).
  rewrite (hex_of_split 4 20 u (2 ^ 80)) by (vm_compute; reflexivity).
  change (hex_of 20 u) with (hex_of (4 + 16) u).
  rewrite (hex_of_split 4 16 u (2 ^ 64)) by (vm_compute; reflexivity).
  change (hex_of 16 u) with (hex_of (4 + 12) u).
  rewrite (hex_of_split 4 12 u (2 ^ 48)) by (vm_compute; reflexivity).
  reflexivity.
Qed.

(** X10. Printing a job id and reading it back from a request path gives
    the id again, for every 128-bit id: [parse_uuid] inverts [str_uuid], so
    GET, PATCH and the cancel and retry POSTs on the printed id reach their
    handlers with that id. *)
Theorem uuid_path_round_trip (u : N) :
  (u < 2 ^ 128)%N →
  parse_uuid (str_uuid u) = Some u
  ∧ handle_request GET ["automation"; "jobs"; str_uuid u]
    = Invoke ep_get_job (Some u)
  ∧ handle_request PATCH ["automation"; "jobs"; str_uuid u]
    = Invoke ep_update_job (Some u)
  ∧ handle_request POST ["automation"; "jobs"; str_uuid u; "cancel"]
    = Invoke ep_cancel_job (Some u)
  ∧ handle_request POST ["automation"; "jobs"; str_uuid u; "retry"]
    = Invoke ep_retry_job (Some u).
Proof.
  intros Hu.
  assert (Hparse : parse_uuid (str_uuid u) = Some u).
  { unfold parse_uuid. rewrite remove_hyphens_str_uuid, hex_of_length.
    rewrite decide_True by reflexivity. rewrite parse_hex_of.
    f_equal. rewrite N.mod_small; [apply N.add_0_l|].
    replace (16 ^ N.of_nat 32)%N with (2 ^ 128)%N
      by (vm_compute; reflexivity).
    exact Hu. }
  assert (Hne : str_uuid u ≠ "").
  { intros Heq. pose proof (f_equal remove_hyphens Heq) as Hrm.
    rewrite remove_hyphens_str_uuid in Hrm.
    pose proof (hex_of_length 32 u) as Hlen. rewrite Hrm in Hlen.
    discriminate Hlen. }
  split; [exact Hparse|].
  revert Hparse Hne. generalize (str_uuid u). intros seg Hparse Hne.
  unfold handle_request, routes, resolve, matches; simpl.
  repeat (rewrite decide_False by exact Hne; simpl).
  rewrite Hparse. repeat split.
Qed.

Lemma uuid_path_round_trip_witness :
  parse_uuid (str_uuid 42) = Some 42%N
  ∧ handle_request GET ["automation"; "jobs"; str_uuid 42]
    = Invoke ep_get_job (Some 42%N)
  ∧ handle_request PATCH ["automation"; "jobs"; str_uuid 42]
    = Invoke ep_update_job (Some 42%N)
  ∧ handle_request POST ["automation"; "jobs"; str_uuid 42; "cancel"]
    = Invoke ep_cancel_job (Some 42%N)
  ∧ handle_request POST ["automation"; "jobs"; str_uuid 42; "retry"]
    = Invoke ep_retry_job (Some 42%N).
Proof. apply (uuid_path_round_trip 42). reflexivity. Defined.

(** ** Schedule recommendations *)

Lemma interval_of_positive (jt : string) : 0 < interval_of jt.
Proof.
  unfold interval_of, intervals.
  repeat case_decide; simpl; unfold timedelta_hours, hour, second; lia.
Qed.

Lemma candidate_not_before_now (last_run : option Z) (interval now : Z) :
  now <= candidate last_run interval now.
Proof.
  unfold candidate, timedelta_minutes, timedelta_hours, hour, second.
  destruct last_run as [t|]; [|lia]. case_decide; lia.
Qed.

(** X11. A recommended time is never in the past: it is the candidate moved
    forward by a whole number of hours, at most as many as there are busy
    hours, and the candidate is not before now. *)
Theorem recommended_time_not_before_now (last_job_times : gmap string Z)
    (busy_hours : gset Z) (jt : string) (now : Z) :
  now <= recommended_time last_job_times busy_hours jt now
  ∧ ∃ k : nat,
      (k <= size busy_hours)%nat
      ∧ recommended_time last_job_times busy_hours jt now
        = candidate (last_job_times !! jt) (interval_of jt) now
          + timedelta_hours (Z.of_nat k).
Proof.
  assert (Hsteps : ∀ fuel t, ∃ k : nat,
            (k <= fuel)%nat
            ∧ avoid_busy fuel busy_hours t = t + timedelta_hours (Z.of_nat k)).
  { induction fuel as [|fuel IH]; intros t.
    - exists 0%nat. split; [lia|]. simpl. unfold timedelta_hours. lia.
    - simpl. case_decide.
      + destruct (IH (t + timedelta_hours 1)) as (k & Hk & ->).
        exists (S k). split; [lia|]. unfold timedelta_hours. lia.
      + exists 0%nat. split; [lia|]. unfold timedelta_hours. lia. }
  unfold recommended_time.
  destruct (Hsteps (size busy_hours)
              (candidate (last_job_times !! jt) (interval_of jt) now))
    as (k & Hk & Hrun).
  split; [|exists k; split; [exact Hk|exact Hrun]].
  rewrite Hrun.
  pose proof (candidate_not_before_now (last_job_times !! jt)
                (interval_of jt) now).
  unfold timedelta_hours, hour, second. lia.
Qed.

(** X12. A recommendation gets priority 2 only when the last completed run
    is more than one and a half intervals old, and then the next run by the
    interval is already past, so the candidate is now + 30 min. *)
Theorem elevated_priority_starts_in_half_an_hour
    (last_job_times : gmap string Z) (jt : string) (now : Z) :
  recommendation_priority (last_job_times !! jt) (interval_of jt) now = 2 →
  candidate (last_job_times !! jt) (interval_of jt) now
  = now + timedelta_minutes 30.
Proof.
  pose proof (interval_of_positive jt) as Hpos.
  unfold recommendation_priority, candidate.
  destruct (last_job_times !! jt) as [last_run|]; [|discriminate].
  case_decide; [|discriminate]. intros _.
  rewrite decide_True by lia. reflexivity.
Qed.

Lemma elevated_priority_starts_in_half_an_hour_witness :
  candidate (({[ "backup" := 0 ]} : gmap string Z) !! "backup")
    (interval_of "backup") (timedelta_hours 20)
  = timedelta_hours 20 + timedelta_minutes 30.
Proof.
  apply (elevated_priority_starts_in_half_an_hour
           {[ "backup" := 0 ]} "backup" (timedelta_hours 20)).
  reflexivity.
Defined.

(** ** The scheduling decision *)

Lemma best_slot_after (now : Z) (queue_load : list (Z * Z)) (n : nat) :
  ∃ k : nat,
    (k <= n)%nat
    ∧ foldl (best_slot_step now queue_load) (now + timedelta_hours 1, None)
            (Z.of_nat <$> seq 0 (S n))
      = (slot_at now (Z.of_nat k),
         Some (slot_load queue_load (slot_at now (Z.of_nat k))))
    ∧ (∀ i : nat, (i <= n)%nat →
         slot_load queue_load (slot_at now (Z.of_nat k))
         <= slot_load queue_load (slot_at now (Z.of_nat i)))
    ∧ (∀ i : nat, (i < k)%nat →
         slot_load queue_load (slot_at now (Z.of_nat k))
         < slot_load queue_load (slot_at now (Z.of_nat i))).
Proof.
  induction n as [|n IH].
  - exists 0%nat. split; [lia|]. split; [reflexivity|].
    split; [|intros i Hi; lia].
    intros i Hi. replace i with 0%nat by lia. lia.
  - destruct IH as (k & Hk & Hrun & Hmin & Hfirst).
    rewrite seq_S, fmap_app, foldl_app, Hrun. simpl.
    unfold best_slot_step at 1. simpl.
    destruct (decide (slot_load queue_load (slot_at now (Z.of_nat (S n)))
                      < slot_load queue_load (slot_at now (Z.of_nat k))))
      as [Hlt|Hge].
    + exists (S n). split; [lia|]. split; [reflexivity|]. split.
      * intros i Hi. destruct (decide (i = S n)) as [->|Hne]; [lia|].
        specialize (Hmin i). lia.
      * intros i Hi. specialize (Hmin i). lia.
    + exists k. split; [lia|]. split; [reflexivity|]. split.
      * intros i Hi. destruct (decide (i = S n)) as [->|Hne]; [lia|].
        apply Hmin. lia.
      * exact Hfirst.
Qed.

(** X13. [_make_scheduling_decision] picks, among the 24 hourly slots that
    start with the current hour, the earliest one of least load: no slot has
    a smaller load than the chosen one and every earlier slot has a greater
    one. The initial value now + 1 h is never the answer as such. *)
Theorem find_best_slot_is_first_minimum (now : Z)
    (queue_load : list (Z * Z)) :
  ∃ k : nat,
    (k < 24)%nat
    ∧ find_best_slot now queue_load
      = (slot_at now (Z.of_nat k),
         Some (slot_load queue_load (slot_at now (Z.of_nat k))))
    ∧ (∀ i : nat, (i < 24)%nat →
         slot_load queue_load (slot_at now (Z.of_nat k))
         <= slot_load queue_load (slot_at now (Z.of_nat i)))
    ∧ (∀ i : nat, (i < k)%nat →
         slot_load queue_load (slot_at now (Z.of_nat k))
         < slot_load queue_load (slot_at now (Z.of_nat i))).
Proof.
  destruct (best_slot_after now queue_load 23)
    as (k & Hk & Hrun & Hmin & Hfirst).
  exists k. split; [lia|]. split; [exact Hrun|]. split; [|exact Hfirst].
  intros i Hi. apply Hmin. lia.
Qed.

Lemma slot_load_no_row (queue_load : list (Z * Z)) (slot : Z) :
  (∀ r, r ∈ queue_load → r.1 ≠ slot) → slot_load queue_load slot = 0.
Proof.
  induction queue_load as [|[h c] rest IH]; intros Hno; simpl;
    [reflexivity|].
  rewrite decide_False by (apply (Hno (h, c)); left).
  apply IH. intros r Hr. apply Hno. by right.
Qed.

Lemma slot_at_microseconds (now : Z) (k : Z) :
  slot_at now k mod second = now mod second.
Proof.
  unfold slot_at, replace_minute_second, timedelta_hours.
  replace (now / hour * hour + now mod second + k * hour)
    with (now mod second + (now / hour * 3600 + k * 3600) * second)
    by (unfold hour; lia).
  rewrite Z_mod_plus_full. apply Z.mod_mod. unfold second. lia.
Qed.

Lemma replace_minute_second_le (t : Z) : replace_minute_second t <= t.
Proof.
  unfold replace_minute_second.
  pose proof (Z.div_mod t hour ltac:(unfold hour, second; lia)) as Hdm.
  assert (Hsub : t mod second = (t mod hour) mod second).
  { rewrite Hdm at 1.
    replace (hour * (t / hour) + t mod hour)
      with (t mod hour + (t / hour * 3600) * second) by (unfold hour; lia).
    apply Z_mod_plus_full. }
  assert (Hle : (t mod hour) mod second <= t mod hour).
  { apply Z.mod_le; [|unfold second; lia].
    apply Z.mod_pos_bound. unfold hour, second. lia. }
  lia.
Qed.

(** X14. When the clock is not on a whole second no row of the queue load,
    whose hours are whole hours, is ever equal to a slot, because the slots
    keep the microseconds of now: every slot counts as empty and the
    decision is the start of the current hour, which is not after now,
    whatever the queue holds. *)
Theorem find_best_slot_ignores_load (now : Z) (queue_load : list (Z * Z)) :
  now mod second ≠ 0 →
  (∀ r, r ∈ queue_load → r.1 mod second = 0) →
  find_best_slot now queue_load = (replace_minute_second now, Some 0)
  ∧ replace_minute_second now <= now.
Proof.
  intros Hmicro Hrows. split; [|apply replace_minute_second_le].
  assert (Hzero : ∀ k, slot_load queue_load (slot_at now k) = 0).
  { intros k. apply slot_load_no_row. intros r Hr Heq.
    pose proof (slot_at_microseconds now k) as Hs.
    rewrite <- Heq, (Hrows r Hr) in Hs. congruence. }
  destruct (best_slot_after now queue_load 23)
    as (k & _ & Hrun & _ & Hfirst).
  unfold find_best_slot, hour_offsets. rewrite Hrun, Hzero.
  destruct k as [|k].
  - unfold slot_at, timedelta_hours. simpl. rewrite Z.add_0_r. reflexivity.
  - specialize (Hfirst 0%nat ltac:(lia)). rewrite !Hzero in Hfirst. lia.
Qed.

Lemma find_best_slot_ignores_load_witness :
  find_best_slot 1 [(0, 9); (hour, 9)] = (replace_minute_second 1, Some 0)
  ∧ replace_minute_second 1 <= 1.
Proof.
  apply (find_best_slot_ignores_load 1 [(0, 9); (hour, 9)]).
  - vm_compute. discriminate.
  - intros r Hr. apply list_elem_of_In in Hr. simpl in Hr.
    destruct Hr as [<-|[<-|[]]]; reflexivity.
Defined.

(** ** The prioritization decision *)

Lemma insert_by_score_length (x : DecisionOption * Z)
    (l : list (DecisionOption * Z)) :
  length (insert_by_score x l) = S (length l).
Proof.
  induction l as [|y l IH]; simpl; [reflexivity|].
  case_decide; simpl; [rewrite IH|]; reflexivity.
Qed.

Lemma sort_by_score_desc_length (l : list (DecisionOption * Z)) :
  length (sort_by_score_desc l) = length l.
Proof.
  induction l as [|x l IH]; [reflexivity|].
  change (sort_by_score_desc (x :: l))
    with (insert_by_score x (sort_by_score_desc l)).
  rewrite insert_by_score_length, IH. reflexivity.
Qed.

(** The head of the sorted list is the first entry of greatest score. *)
Lemma sort_by_score_desc_head (l : list (DecisionOption * Z)) :
  l ≠ [] →
  ∃ p1 w p2 rest,
    l = (p1 ++ w :: p2)%list
    ∧ sort_by_score_desc l = w :: rest
    ∧ (∀ o, o ∈ p1 → o.2 < w.2)
    ∧ (∀ o, o ∈ p2 → o.2 <= w.2).
Proof.
  induction l as [|x l IH]; [done|]. intros _.
  destruct l as [|y l'].
  - exists [], x, [], []. repeat split; intros o Ho; inversion Ho.
  - destruct IH as (p1 & w & p2 & rest & Hl & Hsort & Hp1 & Hp2); [done|].
    change (sort_by_score_desc (x :: y :: l'))
      with (insert_by_score x (sort_by_score_desc (y :: l'))).
    rewrite Hsort. simpl.
    destruct (decide (x.2 < w.2)) as [Hlt|Hge].
    + exists (x :: p1), w, p2, (insert_by_score x rest).
      split; [rewrite Hl; reflexivity|]. split; [reflexivity|].
      split; [|exact Hp2].
      intros o Ho. apply elem_of_cons in Ho as [->|Ho]; [exact Hlt|].
      by apply Hp1.
    + exists [], x, (y :: l'), (w :: rest).
      split; [reflexivity|]. split; [reflexivity|].
      split; [intros o Ho; inversion Ho|].
      intros o Ho. rewrite Hl in Ho.
      apply elem_of_app in Ho as [Ho|Ho].
      * specialize (Hp1 o Ho). lia.
      * apply elem_of_cons in Ho as [->|Ho]; [lia|].
        specialize (Hp2 o Ho). lia.
Qed.




(** ** Client recommendations *)

Lemma recommendation_types (factors : gmap string Z) :
  rec_type <$> generate_client_recommendations factors
  = ((if decide (default 0 (factors !! "engagement") < 50)
      then ["engagement"] else [])
     ++ (if decide (default 0 (factors !! "automation_success") < 70)
         then ["optimization"] else [])
     ++ (if decide (default 0 (factors !! "system_stability") < 80)
         then ["maintenance"] else [])
     ++ (if decide (80 < default 0 (factors !! "growth_potential"))
         then ["upsell"] else []))%list.
Proof.
  unfold generate_client_recommendations.
  repeat case_decide; reflexivity.
Qed.

(** [_generate_client_recommendations] returns nothing exactly when
    engagement is at least 50, automation_success at least 70,
    system_stability at least 80 and growth_potential at most 80, a factor
    missing from the dict counting as 0; what it returns is always in the
    order engagement, optimization, maintenance, upsell, each type at most
    once. *)
Lemma generate_client_recommendations_empty_iff (factors : gmap string Z) :
  (generate_client_recommendations factors = []
   ↔ 50 <= default 0 (factors !! "engagement")
     ∧ 70 <= default 0 (factors !! "automation_success")
     ∧ 80 <= default 0 (factors !! "system_stability")
     ∧ default 0 (factors !! "growth_potential") <= 80)
  ∧ rec_type <$> generate_client_recommendations factors
    `sublist_of` ["engagement"; "optimization"; "maintenance"; "upsell"].
Proof.
  split.
  - transitivity (rec_type <$> generate_client_recommendations factors = []).
    { split; [intros ->; reflexivity|apply fmap_nil_inv]. }
    rewrite recommendation_types.
    repeat case_decide; simpl; split; intros;
      first [ done | lia | exfalso; lia ].
  - rewrite recommendation_types.
    repeat case_decide; simpl;
      repeat first [ apply sublist_nil | apply sublist_skip
                   | apply sublist_cons ].
Qed.

Lemma calculate_health_factors_lookup (activity_count : Z)
    (automation_success support_responsiveness : Z)
    (payment_status : option string) (error_count restaurant_count : Z) :
  let factors :=
    calculate_health_factors activity_count automation_success
      support_responsiveness payment_status error_count restaurant_count in
  factors !! "engagement" = Some (Z.min 100 (activity_count * 5))
  ∧ factors !! "automation_success" = Some automation_success
  ∧ factors !! "support_responsiveness" = Some support_responsiveness
  ∧ factors !! "system_stability" = Some (Z.max 0 (100 - error_count * 10))
  ∧ factors !! "growth_potential"
    = Some (Z.min 100 (restaurant_count * 20 + 40)).
Proof.
  unfold calculate_health_factors. cbv zeta.
  repeat split;
    repeat first [ apply lookup_insert_eq
                 | rewrite lookup_insert_ne by done ].
Qed.

(** X16. On the factors of [_calculate_health_factors] the recommendations
    follow the raw counts: the check-in call is recommended exactly when
    the client had fewer than 10 activities, the stability audit exactly
    when more than 2 jobs failed, the upsell exactly when the client has
    more than 2 restaurants, and the review of failed automations exactly
    when the success factor is below 70. *)
Theorem recommendations_follow_counts (activity_count : Z)
    (automation_success support_responsiveness : Z)
    (payment_status : option string) (error_count restaurant_count : Z) :
  let types :=
    rec_type <$> generate_client_recommendations
      (calculate_health_factors activity_count automation_success
         support_responsiveness payment_status error_count restaurant_count)
  in
  ("engagement" ∈ types ↔ activity_count < 10)
  ∧ ("optimization" ∈ types ↔ automation_success < 70)
  ∧ ("maintenance" ∈ types ↔ 2 < error_count)
  ∧ ("upsell" ∈ types ↔ 2 < restaurant_count).
Proof.
  cbv zeta. rewrite recommendation_types.
  destruct (calculate_health_factors_lookup activity_count automation_success
              support_responsiveness payment_status error_count
              restaurant_count) as (-> & -> & _ & -> & ->).
  simpl default.
  repeat case_decide; simpl;
    rewrite ?elem_of_cons, ?elem_of_nil;
    intuition (first [ lia | discriminate ]).
Qed.

(** X17. When the counts are not negative and the two factors computed
    elsewhere lie between 0 and 100, so does every factor of the dict, and
    the dict has exactly the six factors. *)
Theorem calculate_health_factors_bounds (activity_count : Z)
    (automation_success support_responsiveness : Z)
    (payment_status : option string) (error_count restaurant_count : Z) :
  0 <= activity_count → 0 <= error_count → 0 <= restaurant_count →
  0 <= automation_success <= 100 → 0 <= support_responsiveness <= 100 →
  map_Forall (fun _ v => 0 <= v <= 100)
    (calculate_health_factors activity_count automation_success
       support_responsiveness payment_status error_count restaurant_count)
  ∧ dom (calculate_health_factors activity_count automation_success
           support_responsiveness payment_status error_count
           restaurant_count)
    = ({[ "engagement"; "automation_success"; "support_responsiveness";
          "payment_health"; "system_stability"; "growth_potential" ]}
       : gset string).
Proof.
  intros Ha He Hr Hs Hp. unfold calculate_health_factors. split.
  - repeat (apply map_Forall_insert_2; [|]); try apply map_Forall_empty;
      try lia.
    repeat case_decide; lia.
  - rewrite !dom_insert_L, dom_empty_L. set_solver.
Qed.

Lemma calculate_health_factors_bounds_witness :
  map_Forall (fun _ v => 0 <= v <= 100)
    (calculate_health_factors 3 80 50 (Some "active") 1 2)
  ∧ dom (calculate_health_factors 3 80 50 (Some "active") 1 2)
    = ({[ "engagement"; "automation_success"; "support_responsiveness";
          "payment_health"; "system_stability"; "growth_potential" ]}
       : gset string).
Proof.
  apply (calculate_health_factors_bounds 3 80 50 (Some "active") 1 2); lia.
Defined.

(** ** The system health report *)



(** ** Queue statistics *)

Lemma sum_counts_insert (m : gmap string nat) (k : string) (v : nat) :
  sum_counts (<[k := v]> m) = (v + sum_counts (delete k m))%nat.
Proof.
  unfold sum_counts. rewrite <- insert_delete_eq.
  rewrite map_fold_insert_L; [reflexivity| |apply lookup_delete_eq].
  intros. lia.
Qed.

Lemma sum_counts_lookup (m : gmap string nat) (k : string) :
  sum_counts m = (default 0%nat (m !! k) + sum_counts (delete k m))%nat.
Proof.
  destruct (m !! k) as [v|] eqn:Hk; simpl.
  - rewrite <- (insert_delete_id m k v Hk) at 1.
    rewrite sum_counts_insert, delete_delete_eq. reflexivity.
  - rewrite (delete_id _ _ Hk). reflexivity.
Qed.

(** The counts of a GROUP BY add up to the number of rows. *)
Lemma sum_counts_group_counts (key : Job → string) (rows : list Job) :
  sum_counts (group_counts key rows) = length rows.
Proof.
  induction rows as [|j rows IH]; [reflexivity|].
  simpl. rewrite sum_counts_insert.
  rewrite (sum_counts_lookup (group_counts key rows) (key j)) in IH.
  unfold group_counts in *. lia.
Qed.

Lemma active_split (rows : list Job) :
  length (filter active rows)
  = (length (filter (fun j => j_status j = PENDING) rows)
     + length (filter (fun j => j_status j = QUEUED) rows)
     + length (filter (fun j => j_status j = RUNNING) rows))%nat.
Proof.
  induction rows as [|j rows IH]; [reflexivity|].
  rewrite !filter_cons. unfold active in *.
  repeat case_decide; simpl; try lia;
    exfalso; intuition congruence.
Qed.

Lemma status_counts_bound (today : Z) (rows : list Job) :
  (length (filter active rows)
   + length (filter (fun j => j_status j = COMPLETED
                              ∧ completed_since today j) rows)
   + length (filter (fun j => j_status j = FAILED
                              ∧ completed_since today j) rows)
   <= length rows)%nat.
Proof.
  induction rows as [|j rows IH]; [reflexivity|].
  rewrite !filter_cons. unfold active in *.
  repeat case_decide; simpl; try lia;
    exfalso; intuition congruence.
Qed.

Lemma filter_all_length (rows : list Job) :
  length (filter (fun _ : Job => True) rows) = length rows.
Proof.
  induction rows as [|j rows IH]; [reflexivity|].
  rewrite filter_cons. case_decide; [simpl; by rewrite IH|tauto].
Qed.

(** X19. [get_job_stats] changes nothing, and its counts are consistent:
    by_type and by_priority each add up to pending + queued + running, and
    the pending, queued, running, completed-today and failed-today jobs
    together are at most total_jobs. *)
Theorem get_job_stats_consistent (s : State) :
  ∃ st,
    get_job_stats s = (inr st, s)
    ∧ sum_counts (by_type st) = (pending st + queued st + running st)%nat
    ∧ sum_counts (by_priority st)
      = (pending st + queued st + running st)%nat
    ∧ (pending st + queued st + running st
       + completed_today st + failed_today st <= total_jobs st)%nat.
Proof.
  unfold get_job_stats. run_monad. cbv zeta.
  eexists. split; [reflexivity|]. simpl.
  rewrite !sum_counts_group_counts. unfold count_jobs.
  rewrite <- active_split.
  split; [reflexivity|]. split; [reflexivity|].
  pose proof (status_counts_bound (clock s / day * day)
                ((map_to_list (jobs s)).*2)) as Hb.
  rewrite filter_all_length. lia.
Qed.

(** ** Recommendations and alerts *)

Lemma decline_recommendation_found (s : IntelligenceState) (rec_id : N)
    (row : RecommendationRow) (reason : string) :
  recommendations s !! rec_id = Some row →
  decline_recommendation rec_id reason s
  = (inr ("declined", str_uuid rec_id),
     mkIntelligenceState (i_clock s) (alerts s)
       (<[rec_id :=
            mkRecommendationRow (rc_title row) "declined"
              ((fun m => {[ "decline_reason" := reason ]} ∪ m)
                 <$> rc_metadata row)
              (i_clock s)]> (recommendations s))).
Proof.
  intros Hrow. unfold decline_recommendation. rewrite Hrow. reflexivity.
Qed.

Lemma accept_recommendation_found (s : IntelligenceState) (rec_id : N)
    (row : RecommendationRow) :
  recommendations s !! rec_id = Some row →
  accept_recommendation rec_id s
  = (inr ("accepted", str_uuid rec_id),
     mkIntelligenceState (i_clock s) (alerts s)
       (<[rec_id :=
            mkRecommendationRow (rc_title row) "accepted"
              (rc_metadata row) (i_clock s)]> (recommendations s))).
Proof.
  intros Hrow. unfold accept_recommendation. rewrite Hrow. reflexivity.
Qed.

(** X20. Neither handler looks at the current status of a recommendation:
    a declined recommendation can be accepted afterwards, and it then has
    status accepted while its metadata (when it was not NULL) still carries
    the decline_reason of the refusal; the other metadata keys are kept
    throughout, and a second decline replaces the reason of the first. *)
Theorem decline_then_accept (s : IntelligenceState) (rec_id : N)
    (row : RecommendationRow) (metadata : gmap string string)
    (reason1 reason2 : string) :
  recommendations s !! rec_id = Some row →
  rc_metadata row = Some metadata →
  ∃ s1 s2 s3 row2 row3 metadata3,
    decline_recommendation rec_id reason1 s
      = (inr ("declined", str_uuid rec_id), s1)
    ∧ decline_recommendation rec_id reason2 s1
      = (inr ("declined", str_uuid rec_id), s2)
    ∧ accept_recommendation rec_id s2
      = (inr ("accepted", str_uuid rec_id), s3)
    ∧ recommendations s2 !! rec_id = Some row2
    ∧ rc_status row2 = "declined"
    ∧ recommendations s3 !! rec_id = Some row3
    ∧ rc_status row3 = "accepted"
    ∧ rc_metadata row3 = Some metadata3
    ∧ metadata3 !! "decline_reason" = Some reason2
    ∧ (∀ k, k ≠ "decline_reason" → metadata3 !! k = metadata !! k).
Proof.
  intros Hrow Hmeta.
  eexists. eexists. eexists. eexists. eexists.
  exists ({[ "decline_reason" := reason2 ]}
          ∪ ({[ "decline_reason" := reason1 ]} ∪ metadata)).
  split; [apply (decline_recommendation_found _ _ _ _ Hrow)|].
  split; [apply decline_recommendation_found; apply lookup_insert_eq|].
  split; [apply accept_recommendation_found; apply lookup_insert_eq|].
  simpl. rewrite !lookup_insert_eq.
  split; [reflexivity|]. split; [reflexivity|].
  split; [reflexivity|]. split; [reflexivity|]. simpl.
  rewrite Hmeta. simpl. split; [reflexivity|]. split.
  - apply lookup_union_Some_l. apply lookup_singleton_eq.
  - intros k Hk.
    rewrite !lookup_union_r by (by apply lookup_singleton_ne). reflexivity.
Qed.

Lemma decline_then_accept_witness :
  ∃ s1 s2 s3 row2 row3 metadata3,
    decline_recommendation 1 "too early"
      (mkIntelligenceState 0 ∅
         {[ 1%N := mkRecommendationRow "Upsell" "pending"
                     (Some {[ "source" := "health" ]}) 0 ]})
      = (inr ("declined", str_uuid 1), s1)
    ∧ decline_recommendation 1 "no budget" s1
      = (inr ("declined", str_uuid 1), s2)
    ∧ accept_recommendation 1 s2 = (inr ("accepted", str_uuid 1), s3)
    ∧ recommendations s2 !! 1%N = Some row2
    ∧ rc_status row2 = "declined"
    ∧ recommendations s3 !! 1%N = Some row3
    ∧ rc_status row3 = "accepted"
    ∧ rc_metadata row3 = Some metadata3
    ∧ metadata3 !! "decline_reason" = Some "no budget"
    ∧ (∀ k, k ≠ "decline_reason" →
         metadata3 !! k
         = ({[ "source" := "health" ]} : gmap string string) !! k).
Proof.
  apply (decline_then_accept
           (mkIntelligenceState 0 ∅
              {[ 1%N := mkRecommendationRow "Upsell" "pending"
                          (Some {[ "source" := "health" ]}) 0 ]})
           1
           (mkRecommendationRow "Upsell" "pending"
              (Some {[ "source" := "health" ]}) 0)
           {[ "source" := "health" ]} "too early" "no budget");
    reflexivity.
Defined.

Lemma acknowledge_alert_found (s : IntelligenceState) (alert_id : N)
    (row : AlertRow) (who : string) :
  alerts s !! alert_id = Some row →
  acknowledge_alert alert_id who s
  = (inr ("acknowledged", str_uuid alert_id),
     mkIntelligenceState (i_clock s)
       (<[alert_id :=
            mkAlertRow (al_title row) true (Some who) (Some (i_clock s))]>
          (alerts s))
       (recommendations s)).
Proof.
  intros Hrow. unfold acknowledge_alert. rewrite Hrow. reflexivity.
Qed.

(** X21. Acknowledging an alert that is acknowledged already succeeds
    again and replaces who acknowledged it: the last caller wins, and the
    state is the one a single acknowledgement by that caller gives. *)
Theorem acknowledge_alert_last_wins (s : IntelligenceState) (alert_id : N)
    (row : AlertRow) (first second : string) :
  alerts s !! alert_id = Some row →
  ∃ s1 s2,
    acknowledge_alert alert_id first s
      = (inr ("acknowledged", str_uuid alert_id), s1)
    ∧ acknowledge_alert alert_id second s1
      = (inr ("acknowledged", str_uuid alert_id), s2)
    ∧ alerts s2 !! alert_id
      = Some (mkAlertRow (al_title row) true (Some second) (Some (i_clock s)))
    ∧ acknowledge_alert alert_id second s
      = (inr ("acknowledged", str_uuid alert_id), s2).
Proof.
  intros Hrow. eexists. eexists.
  split; [apply (acknowledge_alert_found _ _ _ _ Hrow)|].
  split; [apply acknowledge_alert_found; apply lookup_insert_eq|].
  simpl. rewrite insert_insert_eq.
  split; [apply lookup_insert_eq|].
  apply (acknowledge_alert_found _ _ _ _ Hrow).
Qed.

Lemma acknowledge_alert_last_wins_witness :
  ∃ s1 s2,
    acknowledge_alert 1 "ann"
      (mkIntelligenceState 7 {[ 1%N := mkAlertRow "Disk" false None None ]} ∅)
      = (inr ("acknowledged", str_uuid 1), s1)
    ∧ acknowledge_alert 1 "bob" s1
      = (inr ("acknowledged", str_uuid 1), s2)
    ∧ alerts s2 !! 1%N
      = Some (mkAlertRow "Disk" true (Some "bob") (Some 7))
    ∧ acknowledge_alert 1 "bob"
        (mkIntelligenceState 7
           {[ 1%N := mkAlertRow "Disk" false None None ]} ∅)
      = (inr ("acknowledged", str_uuid 1), s2).
Proof.
  apply (acknowledge_alert_last_wins
           (mkIntelligenceState 7
              {[ 1%N := mkAlertRow "Disk" false None None ]} ∅)
           1 (mkAlertRow "Disk" false None None) "ann" "bob").
  reflexivity.
Defined.
